(** * Behavior3JS: the Parallel composite and the project loader

    A shallow embedding of [src/composites/Parallel.js] and of the helper
    file that defines [b3.LoadProject], followed by the properties of the
    two that the specification talks about.

    JavaScript objects used as dictionaries are finite maps ([gmap]) of
    their own properties, read together with what every plain object
    inherits from [Object.prototype]; objects that are shared and mutated
    (trees, nodes, children arrays) live in an explicit heap and are named
    by their location; code that can throw returns a [completion]. *)

From Stdlib Require Import ZArith Lia Ascii.
From stdpp Require Import gmap strings list fin_maps.

Local Open Scope Z_scope.

(** ** A small core of JavaScript *)

Module Js.

(** Heap locations: every object created by [new] or by an array literal
    gets the next free one. *)
Abbreviation loc := nat (only parsing).

(** Values.  [VRef l] is the object or array at [l] in the heap.
    [VHost n] and [VFun n] are an object and a function of the caller that
    the code only passes around (a property bag of the project data, a
    custom class): they are truthy, equal only to themselves, and none of
    the properties that the loader reads is defined on them.  [VNative n]
    is an object that the engine provides, named by the expression that
    denotes it ([Object.prototype.toString], [Object.prototype]): it is
    truthy too, and has none of those properties either. *)
Inductive value :=
| VUndef
| VNull
| VBool (b : bool)
| VNum (n : Z)
| VStr (s : string)
| VHost (n : N)
| VFun (n : N)
| VNative (name : string)
| VRef (l : loc).

#[global] Instance value_eq_dec : EqDecision value.
Proof. solve_decision. Defined.

#[global] Instance value_inhabited : Inhabited value := populate VUndef.

(** The errors the two files can raise. *)
Inductive error :=
| EvalError (msg : string)
| TypeError (msg : string)
| ReferenceError (msg : string).

#[global] Instance error_eq_dec : EqDecision error.
Proof. solve_decision. Defined.

(** Outcome of running code that may [throw]. *)
Inductive completion (A : Type) :=
| Normal (a : A)
| Throw (e : error).
Arguments Normal {A} a.
Arguments Throw {A} e.

Definition bind {A B} (c : completion A) (k : A -> completion B) : completion B :=
  match c with
  | Normal a => k a
  | Throw e => Throw e
  end.

#[global] Instance completion_ret : MRet completion := @Normal.
#[global] Instance completion_bind : MBind completion :=
  fun A B k c => bind c k.

(** ToBoolean, on the values above (there is no NaN here). *)
Definition truthy (v : value) : bool :=
  match v with
  | VUndef | VNull => false
  | VBool b => b
  | VNum n => negb (n =? 0)
  | VStr s => negb (bool_decide (s = EmptyString))
  | VHost _ | VFun _ | VNative _ | VRef _ => true
  end.

(** [a || b] *)
Definition or (a b : value) : value := if truthy a then a else b.

(** [a === b] *)
Definition strict_eq (a b : value) : bool := bool_decide (a = b).

(** [typeof v]; note that [typeof null] is ["object"].  Of the objects
    of the engine that occur here, all but [Object.prototype] are
    functions. *)
Definition typeof (v : value) : string :=
  match v with
  | VUndef => "undefined"
  | VNull => "object"
  | VBool _ => "boolean"
  | VNum _ => "number"
  | VStr _ => "string"
  | VFun _ => "function"
  | VNative name => if decide (name = "Object.prototype") then "object" else "function"
  | VHost _ | VRef _ => "object"
  end.

(** The values that are objects; [null] is not one. *)
Definition is_object (v : value) : bool :=
  match v with
  | VHost _ | VFun _ | VNative _ | VRef _ => true
  | _ => false
  end.

(** The objects of the engine. *)
Definition is_native (v : value) : bool :=
  match v with
  | VNative _ => true
  | _ => false
  end.

(** *** Plain objects *)

(** What an object made by [{}] or by an object literal inherits: the
    properties of [Object.prototype], which are the members that the
    standard gives it, and the four legacy accessor helpers and
    [__proto__] that engines add.  Read on a plain object, [__proto__]
    yields [Object.prototype] itself. *)
Definition Object_prototype : gmap string value :=
  list_to_map
    [("constructor", VNative "Object");
     ("hasOwnProperty", VNative "Object.prototype.hasOwnProperty");
     ("isPrototypeOf", VNative "Object.prototype.isPrototypeOf");
     ("propertyIsEnumerable", VNative "Object.prototype.propertyIsEnumerable");
     ("toLocaleString", VNative "Object.prototype.toLocaleString");
     ("toString", VNative "Object.prototype.toString");
     ("valueOf", VNative "Object.prototype.valueOf");
     ("__defineGetter__", VNative "Object.prototype.__defineGetter__");
     ("__defineSetter__", VNative "Object.prototype.__defineSetter__");
     ("__lookupGetter__", VNative "Object.prototype.__lookupGetter__");
     ("__lookupSetter__", VNative "Object.prototype.__lookupSetter__");
     ("__proto__", VNative "Object.prototype")].

(** [o[k]] for a plain object with the own properties [own]: its own
    property, else the inherited one, else [undefined]. *)
Definition plain_get (own : gmap string value) (k : string) : value :=
  match own !! k with
  | Some v => v
  | None => default VUndef (Object_prototype !! k)
  end.

(** [k in o] for a plain object: own or inherited. *)
Definition plain_has (own : gmap string value) (k : string) : bool :=
  bool_decide (is_Some (own !! k)) || bool_decide (is_Some (Object_prototype !! k)).

(** The heap: objects (own and inherited properties flattened into one
    property map; they are read under fixed names only, none of which is
    a name of [Object.prototype]) and arrays. *)
Inductive cell :=
| CObj (props : gmap string value)
| CArr (elems : list value).

Abbreviation heap := (list cell) (only parsing).

(** [new] and array literals take the next free location. *)
Definition alloc (c : cell) (h : heap) : loc * heap := (length h, h ++ [c]).

(** [o.k] as an expression: reading a property of [undefined] or [null]
    throws; a property that is not there reads as [undefined]. *)
Definition get_prop (h : heap) (o : value) (k : string) : completion value :=
  match o with
  | VUndef => Throw (TypeError ("Cannot read property " +:+ k +:+ " of undefined"))
  | VNull => Throw (TypeError ("Cannot read property " +:+ k +:+ " of null"))
  | VRef l =>
      match h !! l with
      | Some (CObj props) => Normal (default VUndef (props !! k))
      | _ => Normal VUndef
      end
  | _ => Normal VUndef
  end.

(** [o.k = v] where [o] is known to be the object at [l]. *)
Definition set_prop (l : loc) (k : string) (v : value) (h : heap) : heap :=
  match h !! l with
  | Some (CObj props) => <[l := CObj (<[k := v]> props)]> h
  | _ => h
  end.

(** [o.k = v] as a statement of strict code: a TypeError on [undefined],
    [null] and the primitive values; on an object of the caller or of the
    engine it changes nothing in the heap. *)
Definition assign (o : value) (k : string) (v : value) (h : heap) : completion heap :=
  match o with
  | VRef l => Normal (set_prop l k v h)
  | VHost _ | VFun _ | VNative _ => Normal h
  | VUndef => Throw (TypeError ("Cannot set property " +:+ k +:+ " of undefined"))
  | VNull => Throw (TypeError ("Cannot set property " +:+ k +:+ " of null"))
  | VBool _ | VNum _ | VStr _ => Throw (TypeError ("Cannot create property " +:+ k))
  end.

(** [a.push(v)]: [a] has to be an array. *)
Definition push (a : value) (v : value) (h : heap) : completion heap :=
  match a with
  | VUndef => Throw (TypeError "Cannot read property push of undefined")
  | VNull => Throw (TypeError "Cannot read property push of null")
  | VRef l =>
      match h !! l with
      | Some (CArr elems) => Normal (<[l := CArr (elems ++ [v])]> h)
      | _ => Throw (TypeError "push is not a function")
      end
  | _ => Throw (TypeError "push is not a function")
  end.

(** [Array.prototype.forEach] over an array that the callback does not
    resize: the callback runs on every element, first to last; it may
    throw, and it may change the state [St] that it shares with the rest
    of the program. *)
Fixpoint forEach {A St} (f : A -> St -> completion St) (l : list A) (s : St)
  : completion St :=
  match l with
  | [] => Normal s
  | x :: l' => bind (f x s) (forEach f l')
  end.

End Js.

(** ** [b3.Parallel] *)

Module Parallel.
Import Js.

(** The four state constants [b3.SUCCESS], [b3.FAILURE], [b3.RUNNING] and
    [b3.ERROR]: a closed enumeration, used by [tick] as the keys of its
    counter object. *)
Inductive Status := SUCCESS | FAILURE | RUNNING | ERROR.

#[global] Instance Status_eq_dec : EqDecision Status.
Proof. solve_decision. Defined.

Definition Status_code (s : Status) : nat :=
  match s with SUCCESS => 1 | FAILURE => 2 | RUNNING => 3 | ERROR => 4 end%nat.

Definition Status_of_code (n : nat) : option Status :=
  match n with
  | 1 => Some SUCCESS | 2 => Some FAILURE | 3 => Some RUNNING | 4 => Some ERROR
  | _ => None
  end%nat.

#[global] Instance Status_countable : Countable Status.
Proof.
  apply (inj_countable Status_code Status_of_code). by intros [].
Defined.

Section Nodes.
(** [Tick] is the tick object handed down the tree; [World] is
    everything a child may read or write while it runs (the blackboard
    of the agent, the target). *)
Context {Tick World : Type}.

(** What [tick] needs of a child: its [_execute] method (the entry
    point that opens, ticks and closes the node) and, to tell the two
    apart, its raw [tick] method.  A child reports a state constant;
    per the node protocol it does not throw. *)
Record Node := {
  id : string;
  _execute : Tick -> World -> Status * World;
  _tick : Tick -> World -> Status * World;
}.

(** A Parallel instance after [initialize]: [this.F], [this.S] and the
    [children] array that the Composite base class holds. *)
Record ParallelNode := {
  F : Z;
  S : Z;
  children : list Node;
}.

(** [var counter = {}; counter[b3.SUCCESS] = 0; ...] *)
Definition counter0 : gmap Status Z :=
  <[ERROR := 0]> (<[RUNNING := 0]> (<[FAILURE := 0]> (<[SUCCESS := 0]> ∅))).

(** [counter[status]], read as a number; the four keys are always there. *)
Definition count (counter : gmap Status Z) (status : Status) : Z :=
  default 0 (counter !! status).

(** The body of the [forEach] callback: [counter[node._execute(tick)]++] *)
Definition count_child (tick : Tick) (node : Node)
    (st : gmap Status Z * World) : completion (gmap Status Z * World) :=
  let '(status, w) := _execute node tick (snd st) in
  Normal (alter Z.succ status (fst st), w).

(** [tick], lines 56-73. *)
Definition tick (this : ParallelNode) (tick : Tick) (w : World)
  : completion (Status * World) :=
  '(counter, w') ← forEach (count_child tick) (children this) (counter0, w);
  if count counter SUCCESS >=? S this then Normal (SUCCESS, w')
  else if count counter FAILURE >=? F this then Normal (FAILURE, w')
  else Normal (RUNNING, w').

(** **** Vocabulary of the specification *)

(** The states the children report, and the world they leave, when each
    is executed once, first to last. *)
Fixpoint run (nodes : list Node) (tick : Tick) (w : World) : list Status * World :=
  match nodes with
  | [] => ([], w)
  | node :: rest =>
      let '(status, w) := _execute node tick w in
      let '(statuses, w) := run rest tick w in
      (status :: statuses, w)
  end.

(** How many of the children reported [status]. *)
Definition tally (status : Status) (statuses : list Status) : Z :=
  Z.of_nat (length (filter (λ s, s = status) statuses)).

(** The threshold rule, on the two counts that matter. *)
Definition threshold_rule (F S successes failures : Z) : Status :=
  if successes >=? S then SUCCESS
  else if failures >=? F then FAILURE
  else RUNNING.

End Nodes.
Arguments Node : clear implicits.
Arguments ParallelNode : clear implicits.

(** A call of a method of a node, as an observer of the children sees it. *)
Inductive Call := Called (method : string) (node : string).

(** The same node, under observation: each call of one of its methods is
    appended to a log that travels with the world. *)
Definition watch {Tick World} (node : Node Tick World) : Node Tick (World * list Call) :=
  {| id := id node;
     _execute := λ tick wl,
       let '(status, w) := _execute node tick (fst wl) in
       (status, (w, snd wl ++ [Called "_execute" (id node)]));
     _tick := λ tick wl,
       let '(status, w) := _tick node tick (fst wl) in
       (status, (w, snd wl ++ [Called "tick" (id node)])) |}.

Definition watched {Tick World} (this : ParallelNode Tick World)
  : ParallelNode Tick (World * list Call) :=
  {| F := F this; S := S this; children := watch <$> children this |}.

(** A leaf that reports the same state whenever it is executed. *)
Definition constant {Tick World} (name : string) (status : Status) : Node Tick World :=
  {| id := name; _execute := λ _ w, (status, w); _tick := λ _ w, (status, w) |}.

(** *** Construction *)

(** [x = v] in strict code, where no enclosing function declares [x]: the
    assignment goes to the global of that name if there is one, and is a
    ReferenceError if there is none.  (The file opens with "use strict"
    and neither [initialize] nor the function around the class declares
    [parameters].) *)
Definition assign_global (x : string) (v : value) (globals : gmap string value)
  : completion (gmap string value) :=
  if decide (is_Some (globals !! x)) then Normal (<[x := v]> globals)
  else Throw (ReferenceError (x +:+ " is not defined")).

(** [v || {}] *)
Definition or_empty_object (v : value) (h : heap) : value * heap :=
  if truthy v then (v, h)
  else let '(o, h) := alloc (CObj ∅) h in (VRef o, h).

Section Initialize.
(** [b3.Composite.prototype.initialize], which is not in this file; it
    is called on [this] without an argument. *)
Variable Composite_initialize : loc -> heap -> completion heap.

(** What an instance inherits from [b3.Parallel.prototype]. *)
Variable prototype : gmap string value.

(** [initialize], lines 34-40.  [globals] are the global variables. *)
Definition initialize (this : loc) (settings : value)
    (globals : gmap string value) (h : heap)
  : completion (gmap string value * heap) :=
  let '(v, h) := or_empty_object settings h in
  globals ← assign_global "parameters" v globals;
  h ← Composite_initialize this h;
  f ← get_prop h settings "F";
  h ← assign (VRef this) "F" (or f (VNum 0)) h;
  s ← get_prop h settings "S";
  h ← assign (VRef this) "S" (or s (VNum 0)) h;
  Normal (globals, h).

(** [new b3.Parallel(params)]: the function that [b3.Class] returns
    runs [this.initialize(params || {})] on the new object. *)
Definition construct (params : value) (globals : gmap string value) (h : heap)
  : completion (loc * gmap string value * heap) :=
  let '(this, h) := alloc (CObj prototype) h in
  let '(settings, h) := or_empty_object params h in
  '(globals, h) ← initialize this settings globals h;
  Normal (this, globals, h).
End Initialize.

End Parallel.

(** ** [b3.LoadProject] *)

(** The objects that the loader makes with [{}] and uses as dictionaries
    ([trees], [tempNodes]) are maps of their own properties, and so is the
    custom mapping [names] (an object literal of the caller, or [{}]); a
    key that such an object does not own is looked up in
    [Object.prototype], as [plain_get] and [plain_has] do.  A write under
    a key makes an entry; that is so for every key but [__proto__] (see
    [ordinary] below). *)

Module Loader.
Import Js.

(** *** The project data, as the editor writes it *)

(** A node specification, [nodes[id]]. *)
Record NodeSpec := {
  spec_name : string;
  spec_id : value;
  spec_title : value;
  spec_description : value;
  spec_properties : value;
  spec_children : option (list string);
  spec_child : option string;
}.

(** A tree specification.  [tree_nodes] lists the entries of the object
    [tree.nodes] in the order in which [for (var id in nodes)] visits
    them; as in any object, no key occurs twice. *)
Record TreeSpec := {
  tree_id : string;
  tree_title : value;
  tree_description : value;
  tree_properties : value;
  tree_nodes : list (string * NodeSpec);
  tree_root : string;
}.

(** What a caller can hand to [LoadProject]: a project object with its
    [trees] array, or any other value (which has no [trees] to iterate). *)
Inductive ProjectData :=
| Project (trees : list TreeSpec)
| Data (v : value).

Definition typeof_data (d : ProjectData) : string :=
  match d with
  | Project _ => "object"
  | Data v => typeof v
  end.

(** *** The [b3] namespace, as far as the loader uses it *)

(** What a constructor leaves behind: the properties of the new object
    (those of its prototype included) and, for a composite, the elements
    of the fresh array it stores in [children]. *)
Record instance := {
  fields : gmap string value;
  kids : option (list value);
}.

(** A member of the namespace: a function, which [new] can call with one
    argument, or something else. *)
Inductive Member :=
| Class (construct : value -> completion instance)
| Constant (v : value).

(** The namespace object: the category constants, the [BehaviorTree]
    class, and every member by name.  None of them is defined in the two
    files at hand.  [BehaviorTree l] is the state of a tree just
    constructed at location [l] (its default id is random). *)
Record Namespace := {
  COMPOSITE : value;
  DECORATOR : value;
  BehaviorTree : loc -> gmap string value;
  members : gmap string Member;
}.

(** [new cls(arg)] *)
Definition new (cls : Member) (arg : value) (h : heap) : completion (loc * heap) :=
  match cls with
  | Class construct =>
      inst ← construct arg;
      match kids inst with
      | Some elems =>
          let '(a, h1) := alloc (CArr elems) h in
          Normal (alloc (CObj (<["children" := VRef a]> (fields inst))) h1)
      | None => Normal (alloc (CObj (fields inst)) h)
      end
  | Constant _ => Throw (TypeError "cls is not a constructor")
  end.

(** The two callbacks given to [forEach] are plain functions in strict
    code and [forEach] gets no second argument: inside them [this] is
    [undefined]. *)
Definition callback_this : value := VUndef.

(** The text of the EvalError of lines 174-175. *)
Definition dquote : string := String (Ascii.ascii_of_nat 34) EmptyString.

Definition invalid_node_name (name : string) : string :=
  "BehaviorTree.load: Invalid node name + " +:+ dquote +:+ name +:+ dquote +:+ ".".

(** [o.k = o.k' || ...]: [node.id = spec.id || node.id] and its like. *)
Definition set_or (l : loc) (k : string) (v : value) (h : heap) : completion heap :=
  old ← get_prop h (VRef l) k;
  Normal (set_prop l k (or v old) h).

(** **** Vocabulary of the specification *)

(** The property map [p] after [o.k = v || o.k]. *)
Definition filled (k : string) (v : value) (p : gmap string value) : gmap string value :=
  <[k := or v (default VUndef (p !! k))]> p.

(** A BehaviorTree made at [l] for a tree specification: the defaults of
    the constructor, with id, title, description and properties taken
    from the specification wherever it gives them. *)
Definition BehaviorTree_from (b3 : Namespace) (l : loc) (tree : TreeSpec)
  : gmap string value :=
  filled "properties" (tree_properties tree)
    (filled "description" (tree_description tree)
       (filled "title" (tree_title tree)
          (filled "id" (VStr (tree_id tree)) (BehaviorTree b3 l)))).

(** The mapping and the heap once a tree object has been made for each
    specification of the list, first to last. *)
Fixpoint created (b3 : Namespace) (project_trees : list TreeSpec)
    (trees : gmap string loc) (h : heap) : gmap string loc * heap :=
  match project_trees with
  | [] => (trees, h)
  | tree :: rest =>
      created b3 rest (<[tree_id tree := length h]> trees)
              (h ++ [CObj (BehaviorTree_from b3 (length h) tree)])
  end.

(** The object at [l] is still there and its property [k] is what it was. *)
Definition keeps (k : string) (l : loc) (h h' : heap) : Prop :=
  ∀ p, h !! l = Some (CObj p) →
       ∃ p', h' !! l = Some (CObj p') ∧ p' !! k = p !! k.

(** The ids of a project are the keys under which the loader writes
    into its dictionaries.  They are ordinary when none of them is
    [__proto__]: an assignment under that name makes no entry but changes
    the prototype of the dictionary, and with it what the dictionary
    inherits. *)
Definition ordinary_ids (ids : list string) : Prop := "__proto__" ∉ ids.

Definition ordinary (project_trees : list TreeSpec) : Prop :=
  ordinary_ids (tree_id <$> project_trees) ∧
  Forall (λ tree, ordinary_ids (tree_nodes tree).*1) project_trees.

(** The array at [a] is still there, and what it held is still at its
    front. *)
Definition grows (a : loc) (h h' : heap) : Prop :=
  ∀ elems, h !! a = Some (CArr elems) →
           ∃ more, h' !! a = Some (CArr (elems ++ more)).

Section LoadProject.
Variable b3 : Namespace.

(** The callback of the first [forEach], lines 142-151. *)
Definition create_tree (tree : TreeSpec) (st : gmap string loc * heap)
  : completion (gmap string loc * heap) :=
  let '(trees, h) := st in
  let '(tempTree, h) := alloc (CObj (BehaviorTree b3 (length h))) h in
  h ← set_or tempTree "id" (VStr (tree_id tree)) h;
  h ← set_or tempTree "title" (tree_title tree) h;
  h ← set_or tempTree "description" (tree_description tree) h;
  h ← set_or tempTree "properties" (tree_properties tree) h;
  Normal (<[tree_id tree := tempTree]> trees, h).

Section Tree.
(** Inside the second callback: [trees] and [names] are fixed. *)
Variable trees : gmap string loc.
Variable names : gmap string value.

(** [trees[k]]: the tree object filed under [k], or what [trees], a plain
    object, inherits under that name. *)
Definition tree_at (k : string) : value := plain_get (VRef <$> trees) k.

(** Lines 166-176: from the name to the class.  [name in names] holds for
    the inherited names too; where it fails the name is none of them, and
    [name in b3] asks for a member of the namespace itself. *)
Definition resolve (name : string) (h : heap) : completion Member :=
  if plain_has names name then
    _nodes ← get_prop h callback_this "_nodes";
    cls ← get_prop h _nodes name;
    Normal (Constant cls)
  else
    match members b3 !! name with
    | Some cls => Normal cls
    | None => Throw (EvalError (invalid_node_name name))
    end.

(** One round of the loop of lines 159-186. *)
Definition instantiate (entry : string * NodeSpec)
    (st : gmap string value * heap) : completion (gmap string value * heap) :=
  let '(id, spec) := entry in
  let '(tempNodes, h) := st in
  if truthy (tree_at (spec_name spec)) then
    Normal (<[id := tree_at (spec_name spec)]> tempNodes, h)
  else
    cls ← resolve (spec_name spec) h;
    '(node, h) ← new cls (spec_properties spec) h;
    h ← set_or node "id" (spec_id spec) h;
    h ← set_or node "title" (spec_title spec) h;
    h ← set_or node "description" (spec_description spec) h;
    h ← set_or node "properties" (spec_properties spec) h;
    Normal (<[id := VRef node]> tempNodes, h).

(** [tempNodes[k]]; [tempNodes] is a plain object as well. *)
Definition temp (tempNodes : gmap string value) (k : string) : value :=
  plain_get tempNodes k.

(** One round of the loop of lines 188-200. *)
Definition connect (tempNodes : gmap string value) (entry : string * NodeSpec)
    (h : heap) : completion heap :=
  let '(id, spec) := entry in
  let node := temp tempNodes id in
  category ← get_prop h node "category";
  if strict_eq category (COMPOSITE b3) && bool_decide (is_Some (spec_children spec))
  then
    forEach (fun cid h =>
               children ← get_prop h node "children";
               push children (temp tempNodes cid) h)
            (default [] (spec_children spec)) h
  else if strict_eq category (DECORATOR b3)
          && truthy (from_option VStr VUndef (spec_child spec))
  then assign node "child" (temp tempNodes (default EmptyString (spec_child spec))) h
  else Normal h.

(** The callback of the second [forEach], lines 155-204. *)
Definition load_tree (tree : TreeSpec) (h : heap) : completion heap :=
  '(tempNodes, h) ← forEach instantiate (tree_nodes tree) (∅, h);
  h ← forEach (connect tempNodes) (tree_nodes tree) h;
  assign (tree_at (tree_id tree)) "root" (temp tempNodes (tree_root tree)) h.
End Tree.

(** [LoadProject], lines 131-207.  It is given the project data, the
    optional [names] and the heap; it hands back what it returns
    ([None] for [undefined]), the heap, and what it wrote to the
    console. *)
Definition LoadProject (projectData : ProjectData)
    (names : option (gmap string value)) (h : heap)
  : completion (option (gmap string loc) * heap * list string) :=
  if bool_decide (typeof_data projectData ≠ "object") then
    Normal (None, h, ["No project data provided."])
  else
    let names := default ∅ names in
    match projectData with
    | Data v =>
        _ ← get_prop h v "trees";
        Throw (TypeError "Cannot read property forEach of undefined")
    | Project project_trees =>
        '(trees, h) ← forEach create_tree project_trees (∅, h);
        h ← forEach (load_tree trees names) project_trees h;
        Normal (Some trees, h, [])
    end.
End LoadProject.
End Loader.

(** ** [b3.createUUID] *)

Module Uuid.
Import Js.

(** [var hexDigits = "0123456789abcdef"] *)
Definition hexDigits : string := "0123456789abcdef".

(** [str.substr(start, 1)] for a start that is not negative: the character
    at [start], or the empty string past the end. *)
Definition substr1 (str : string) (start : nat) : string := String.substring start 1 str.

(** [s[i] = x] on an array of strings: inside the array the element is
    replaced; at its end or past it the array grows.  The holes that a
    write past the end leaves read as [undefined], which [join] prints and
    [&] reads like the empty string, and that is how they stand here. *)
Definition array_set (i : nat) (x : string) (s : list string) : list string :=
  if decide (i < length s)%nat then <[i := x]> s
  else s ++ replicate (i - length s) EmptyString ++ [x].

(** [s[i]], read as a string. *)
Definition array_get (i : nat) (s : list string) : string :=
  default EmptyString (s !! i).

(** [x & 0x3], up to the [&]: the 32-bit integer that a string of at most
    one character converts to.  A decimal digit is its value, the empty
    string is 0, and a letter is NaN, which converts to 0. *)
Definition to_int32 (x : string) : Z :=
  match x with
  | String c EmptyString =>
      let n := Ascii.nat_of_ascii c in
      if (48 <=? n)%nat && (n <=? 57)%nat then Z.of_nat (n - 48) else 0
  | _ => 0
  end.

(** [s.join("")] *)
Definition join (s : list string) : string := foldr String.append EmptyString s.

(** The loop of lines 22-24, from [i] on, [n] rounds.  [random i] is what
    [Math.floor(Math.random() * 0x10)] gives in round [i]. *)
Fixpoint fill (random : nat -> nat) (i n : nat) (s : list string) : list string :=
  match n with
  | O => s
  | Datatypes.S n' => fill random (Datatypes.S i) n' (array_set i (substr1 hexDigits (random i)) s)
  end.

(** [createUUID], lines 19-35. *)
Definition createUUID (random : nat -> nat) : string :=
  let s := fill random 0 36 [] in
  let s := array_set 14 "4" s in
  let s := array_set 19
             (substr1 hexDigits (Z.to_nat (Z.lor (Z.land (to_int32 (array_get 19 s)) 3) 8))) s in
  let s := array_set 23 "-" s in
  let s := array_set 18 "-" s in
  let s := array_set 13 "-" s in
  let s := array_set 8 "-" s in
  join s.

(** **** Vocabulary of the specification *)

(** The hexadecimal digit of a number below 16. *)
Definition hex (d : nat) : Ascii.ascii :=
  default (Ascii.ascii_of_nat 48) (String.get d hexDigits).

(** What line 29 makes of the digit drawn for position 19. *)
Definition clock_seq (d : nat) : nat :=
  if (d <? 10)%nat then Z.to_nat (Z.lor (Z.land (Z.of_nat d) 3) 8) else 8.

(** The character that belongs at position [i]. *)
Definition expected (random : nat -> nat) (i : nat) : Ascii.ascii :=
  if bool_decide (i ∈ [8; 13; 18; 23]%nat) then Ascii.ascii_of_nat 45
  else if bool_decide (i = 14%nat) then Ascii.ascii_of_nat 52
  else if bool_decide (i = 19%nat) then hex (clock_seq (random 19%nat))
  else hex (random i).

End Uuid.

(** ** [b3.Class] *)

(** Here objects have a prototype: a property that an object does not own
    is looked up in its prototype, and so on.  The chain leaves the heap at
    [null], at [Object.prototype], or at another object that the caller
    or the engine provides ([Function.prototype], the prototype of a
    class of the caller); what such an object has under a name is given by
    [foreign].  Properties are data properties: the accessor [__proto__]
    is not among the names written or read here. *)

Module Classes.
Import Js.

(** What a function does when it is called. *)
Inductive code :=
| ClassBody
| EmptyBody
| Native (n : N).

Record object := {
  own : gmap string value;
  proto : value;
  callable : option code;
}.

Abbreviation objects := (list object) (only parsing).

Section Foreign.
(** [foreign o k] is [o[k]] for an object [o] that is not in the heap. *)
Variable foreign : value -> string -> value.

(** [p[k]] where the chain has left the heap at [p]. *)
Definition beyond (p : value) (k : string) : value :=
  match p with
  | VNative name =>
      if decide (name = "Object.prototype") then plain_get ∅ k else foreign p k
  | VHost _ | VFun _ => foreign p k
  | _ => VUndef
  end.

(** [o.k] along the prototype chain, from the object at [l]. *)
Fixpoint lookup_chain (fuel : nat) (h : objects) (l : loc) (k : string) : value :=
  match fuel with
  | O => VUndef
  | Datatypes.S fuel =>
      match h !! l with
      | Some o =>
          match own o !! k with
          | Some v => v
          | None =>
              match proto o with
              | VRef l' => lookup_chain fuel h l' k
              | p => beyond p k
              end
          end
      | None => VUndef
      end
  end.

(** [o.k] as an expression.  A chain has no object twice, so the number
    of objects is fuel enough.  A primitive value has none of the
    properties that [Class] reads. *)
Definition get (h : objects) (o : value) (k : string) : completion value :=
  match o with
  | VUndef => Throw (TypeError ("Cannot read property " +:+ k +:+ " of undefined"))
  | VNull => Throw (TypeError ("Cannot read property " +:+ k +:+ " of null"))
  | VRef l => Normal (lookup_chain (length h) h l k)
  | VHost _ | VFun _ | VNative _ => Normal (beyond o k)
  | VBool _ | VNum _ | VStr _ => Normal VUndef
  end.

(** [o.k = v] for the object at [l]: the property becomes its own. *)
Definition put (l : loc) (k : string) (v : value) (h : objects) : objects :=
  alter (λ o, {| own := <[k := v]> (own o); proto := proto o; callable := callable o |}) l h.

(** [o.k = v] as a statement of strict code. *)
Definition set (o : value) (k : string) (v : value) (h : objects) : completion objects :=
  match o with
  | VRef l => Normal (put l k v h)
  | VHost _ | VFun _ | VNative _ => Normal h
  | VUndef => Throw (TypeError ("Cannot set property " +:+ k +:+ " of undefined"))
  | VNull => Throw (TypeError ("Cannot set property " +:+ k +:+ " of null"))
  | VBool _ | VNum _ | VStr _ => Throw (TypeError ("Cannot create property " +:+ k))
  end.

(** A function object, and the object that a new function gets for its
    [prototype]: a plain object with a [constructor]. *)
Definition function_object (body : code) (prototype : loc) : object :=
  {| own := {["prototype" := VRef prototype]}; proto := VNative "Function.prototype";
     callable := Some body |}.

Definition prototype_object (constructor : loc) : object :=
  {| own := {["constructor" := VRef constructor]}; proto := VNative "Object.prototype";
     callable := None |}.

(** A function expression: the function object, whose [prototype] is a
    new object, whose [constructor] is the function. *)
Definition function (body : code) (h : objects) : loc * objects :=
  (length h,
   h ++ [function_object body (length h + 1); prototype_object (length h)]).

(** [Object.create(p)]: [p] has to be an object or [null]. *)
Definition Object_create (p : value) (h : objects) : completion (value * objects) :=
  match p with
  | VNull | VRef _ | VHost _ | VFun _ | VNative _ =>
      Normal (VRef (length h), h ++ [ {| own := ∅; proto := p; callable := None |} ])
  | VUndef | VBool _ | VNum _ | VStr _ =>
      Throw (TypeError "Object prototype may only be an Object or null")
  end.

(** [cls.prototype[key] = value] *)
Definition set_prototype (cls : loc) (key : string) (v : value) (h : objects)
  : completion objects :=
  prototype ← get h (VRef cls) "prototype";
  set prototype key v h.

(** [Class], lines 72-97.  [properties] lists the enumerable properties of
    the object given, in the order of [for (var key in properties)];
    [None] stands for a missing or falsy argument. *)
Definition Class (baseClass : value) (properties : option (list (string * value)))
    (h : objects) : completion (value * objects) :=
  let '(cls, h) := function ClassBody h in
  h ← (if truthy baseClass then
         base_prototype ← get h baseClass "prototype";
         '(prototype, h) ← Object_create base_prototype h;
         h ← set (VRef cls) "prototype" prototype h;
         set_prototype cls "constructor" (VRef cls) h
       else Normal h);
  prototype ← get h (VRef cls) "prototype";
  initialize ← get h prototype "initialize";
  h ← (if truthy initialize then Normal h
       else let '(f, h) := function EmptyBody h in
            set_prototype cls "initialize" (VRef f) h);
  h ← match properties with
      | Some entries => forEach (λ entry h, set_prototype cls entry.1 entry.2 h) entries h
      | None => Normal h
      end;
  Normal (VRef cls, h).

(** **** Vocabulary of the specification *)

(** A property map after the assignments [m[key] = value] for the
    entries of a list, first to last. *)
Definition with_entries (entries : list (string * value)) (m : gmap string value)
  : gmap string value :=
  foldl (λ m entry, <[entry.1 := entry.2]> m) m entries.

(** Prototypes are older than their heirs: every prototype link leads to
    an object that was made before. *)
Definition older (h : objects) : Prop :=
  ∀ l o l', h !! l = Some o → proto o = VRef l' → (l' < l)%nat.

(** The object [o] after [o.k = v]. *)
Definition written (k : string) (v : value) (o : object) : object :=
  {| own := <[k := v]> (own o); proto := proto o; callable := callable o |}.

(** What [Object.create] accepts for a prototype. *)
Definition object_or_null (v : value) : bool :=
  match v with
  | VNull | VRef _ | VHost _ | VFun _ | VNative _ => true
  | _ => false
  end.

(** What an object whose prototype is [bp] inherits under the name [k]. *)
Definition inherited (h : objects) (bp : value) (k : string) : value :=
  match bp with
  | VRef b => lookup_chain (length h) h b k
  | p => beyond p k
  end.

(** [Class] is called on [h] without a base class (the prototype of the
    class is then a plain object, and [bp] is [Object.prototype]), or with
    a base class whose [prototype], [bp], is [null] or an object; where
    the base class or [bp] are objects of the heap, they are in [h]. *)
Definition based_on (h : objects) (base bp : value) : Prop :=
  (truthy base = false ∧ bp = VNative "Object.prototype") ∨
  (truthy base = true ∧ (∀ bl, base = VRef bl → (bl < length h)%nat) ∧
   get h base "prototype" = Normal bp ∧
   object_or_null bp = true ∧ ∀ b, bp = VRef b → (b < length h)%nat).
End Foreign.

End Classes.

(** * Sample nodes and projects *)

Section Samples.
Import Js Parallel Loader.

(** Three leaves under a Parallel node with both thresholds at 2, and a
    Parallel node without children. *)
Definition three (a b c : Status) : ParallelNode unit unit :=
  {| F := 2; S := 2;
     children := [constant "a" a; constant "b" b; constant "c" c] |}.

Definition childless (f s : Z) : ParallelNode unit unit :=
  {| F := f; S := s; children := [] |}.

(** What the base class of the nodes leaves in a new instance. *)
Definition node_fields (category name : string) : gmap string value :=
  <["category" := VStr category]>
    (<["name" := VStr name]>
       (<["id" := VStr "generated-id"]>
          (<["title" := VStr name]>
             (<["description" := VStr EmptyString]>
                (<["properties" := VHost 0]> ∅))))).

(** A namespace with one class of each kind, a state constant, and
    [createUUID], which lines 19-35 put into [b3]: called by [new] it
    fills in nothing and returns a string, so [new] yields the empty
    object. *)
Definition b3_sample : Namespace :=
  {| COMPOSITE := VStr "composite";
     DECORATOR := VStr "decorator";
     BehaviorTree := λ _,
       <["id" := VStr "generated-id"]>
         (<["title" := VStr "The behavior tree"]>
            (<["description" := VStr "Default description"]>
               (<["properties" := VHost 0]> (<["root" := VNull]> ∅))));
     members :=
       <["Sequence" := Class (λ _, Normal {| fields := node_fields "composite" "Sequence";
                                             kids := Some [] |})]>
         (<["Inverter" := Class (λ _, Normal {| fields := <["child" := VNull]>
                                                            (node_fields "decorator" "Inverter");
                                                 kids := None |})]>
            (<["Succeeder" := Class (λ _, Normal {| fields := node_fields "action" "Succeeder";
                                                    kids := None |})]>
               (<["createUUID" := Class (λ _, Normal {| fields := ∅; kids := None |})]>
                  (<["SUCCESS" := Constant (VNum 1)]> ∅)))) |}.

Definition node (name : string) : NodeSpec :=
  {| spec_name := name; spec_id := VUndef; spec_title := VStr name;
     spec_description := VUndef; spec_properties := VUndef;
     spec_children := None; spec_child := None |}.

Definition tree (id : string) (root : string) (nodes : list (string * NodeSpec)) : TreeSpec :=
  {| tree_id := id; tree_title := VStr id; tree_description := VUndef;
     tree_properties := VUndef; tree_nodes := nodes; tree_root := root |}.

(** Tree B uses tree A as its root node. *)
Definition tree_A : TreeSpec := tree "A" "1" [("1", node "Succeeder")].
Definition tree_B : TreeSpec := tree "B" "1" [("1", node "A")].
Definition project_AB : list TreeSpec := [tree_A; tree_B].

(** A tree with a custom node. *)
Definition project_custom : list TreeSpec := [tree "T" "1" [("1", node "Mine")]].
Definition custom_names : gmap string value := {["Mine" := VFun 7]}.

(** A tree whose second node has a name that nothing knows, after a
    tree that is in order. *)
Definition tree_bogus : TreeSpec :=
  tree "T" "1" [("1", node "Succeeder"); ("2", node "Bogus")].
Definition project_bogus : list TreeSpec := [tree_A; tree_bogus].

(** The same name after a custom node, and a tree whose only node is
    named after a function of the namespace that is not a node class. *)
Definition project_custom_bogus : list TreeSpec :=
  [tree "T" "1" [("1", node "Mine"); ("2", node "Bogus")]].
Definition project_uuid : list TreeSpec := [tree "T" "1" [("1", node "createUUID")]].

(** A tree whose only node is named after a method that every object
    has, and the same with a custom mapping that has an entry of that
    name. *)
Definition project_toString : list TreeSpec := [tree "T" "1" [("1", node "toString")]].
Definition custom_toString : gmap string value := {["toString" := VFun 8]}.

(** Tree C has a Sequence as its root, with two children: a Succeeder and
    tree A. *)
Definition spec_C_sequence : NodeSpec :=
  {| spec_name := "Sequence"; spec_id := VStr "seq"; spec_title := VUndef;
     spec_description := VUndef; spec_properties := VHost 1;
     spec_children := Some ["2"; "3"]; spec_child := None |}.
Definition tree_C : TreeSpec :=
  tree "C" "1" [("1", spec_C_sequence); ("2", node "Succeeder"); ("3", node "A")].
Definition project_CA : list TreeSpec := [tree_C; tree_A].

(** Tree D has an Inverter as its root, whose child is tree A. *)
Definition spec_D_inverter : NodeSpec :=
  {| spec_name := "Inverter"; spec_id := VUndef; spec_title := VUndef;
     spec_description := VUndef; spec_properties := VUndef;
     spec_children := None; spec_child := Some "2" |}.
Definition tree_D : TreeSpec := tree "D" "1" [("1", spec_D_inverter); ("2", node "A")].
Definition project_DA : list TreeSpec := [tree_D; tree_A].

(** The mapping and the heap of a load that returned a mapping. *)
Definition loaded (r : completion (option (gmap string loc) * heap * list string))
  : gmap string loc * heap :=
  match r with
  | Normal (Some mapping, h, _) => (mapping, h)
  | _ => (∅, [])
  end.

Definition loaded_AB : gmap string loc * heap :=
  loaded (LoadProject b3_sample (Project project_AB) None []).
Definition loaded_CA : gmap string loc * heap :=
  loaded (LoadProject b3_sample (Project project_CA) None []).
Definition loaded_DA : gmap string loc * heap :=
  loaded (LoadProject b3_sample (Project project_DA) None []).

(** A heap with the settings object [{F: 1, S: 2}] at location 0. *)
Definition settings_heap : heap := [CObj (<["F" := VNum 1]> (<["S" := VNum 2]> ∅))].
End Samples.

Section ClassSamples.
Import Js Classes.

(** The heap that a call of [Class] leaves. *)
Definition classes (r : completion (value * objects)) : objects :=
  match r with
  | Normal (_, h) => h
  | Throw _ => []
  end.

(** The objects outside the heap: a class of the caller, the function
    [VFun 9], whose [prototype] is the object [VHost 9], which has a method
    [initialize]; nothing else is defined on them. *)
Definition outside (o : value) (k : string) : value :=
  if decide (o = VFun 9 ∧ k = "prototype") then VHost 9
  else if decide (o = VHost 9 ∧ k = "initialize") then VFun 10
  else VUndef.

(** A base class with two methods, made in the empty heap, and a class
    derived from it that replaces one of them. *)
Definition base_entries : list (string * value) :=
  [("initialize", VFun 1); ("tick", VFun 2)].
Definition heap_base : objects := classes (Class outside VUndef (Some base_entries) []).
Definition derived_entries : list (string * value) :=
  [("tick", VFun 3); ("name", VStr "Parallel")].
Definition heap_derived : objects :=
  classes (Class outside (VRef 0) (Some derived_entries) heap_base).

(** A class derived from the class of the caller. *)
Definition heap_foreign : objects := classes (Class outside (VFun 9) None []).
End ClassSamples.

Section WiringSamples.
Import Js Loader.

(** A Sequence at location 1 with its empty children array at location 0,
    and the slots of a tree in which only the ids 1 and 2 name a node; the
    specification of the Sequence lists two more. *)
Definition heap_sequence : heap :=
  [CArr []; CObj (<["children" := VRef 0]> (node_fields "composite" "Sequence"))].
Definition slots_sequence : gmap string value :=
  <["1" := VRef 1]> (<["2" := VRef 7]> ∅).
Definition spec_sequence : NodeSpec :=
  {| spec_name := "Sequence"; spec_id := VStr "seq"; spec_title := VStr EmptyString;
     spec_description := VUndef; spec_properties := VHost 1;
     spec_children := Some ["2"; "9"; "toString"]; spec_child := None |}.

(** Two trees whose root id names none of their nodes, and a project
    with the same id twice. *)
Definition tree_rootless : TreeSpec := tree "T" "9" [("1", node "Succeeder")].
Definition tree_valueOf : TreeSpec := tree "T" "valueOf" [("1", node "Succeeder")].

(** Two nodes of the same class, and two nodes named after the same
    method of every object. *)
Definition nodes_pair : list (string * NodeSpec) :=
  [("1", node "Succeeder"); ("2", node "Succeeder")].
Definition nodes_toString : list (string * NodeSpec) :=
  [("1", node "toString"); ("2", node "toString")].

(** The slots and the heap that the first loop leaves. *)
Definition slots (r : completion (gmap string value * heap)) : gmap string value * heap :=
  match r with
  | Normal st => st
  | Throw _ => (∅, [])
  end.
End WiringSamples.

(** * Properties of [Parallel.tick] *)

Section ParallelTick.
Import Js Parallel.
Context {Tick World : Type}.
Implicit Types (this : ParallelNode Tick World) (tick : Tick) (w : World).
Implicit Types (counter : gmap Status Z) (status : Status).

Lemma counter0_lookup status : counter0 !! status = Some 0.
Proof. by destruct status. Qed.

Lemma tally_nil status : tally status [] = 0.
Proof. reflexivity. Qed.

Lemma tally_cons status s statuses :
  tally status (s :: statuses) =
  (if decide (s = status) then 1 else 0) + tally status statuses.
Proof.
  unfold tally. rewrite filter_cons. destruct (decide (s = status)); simpl length; lia.
Qed.

Lemma tally_other other status statuses :
  Forall (λ s, s = other) statuses → other ≠ status → tally status statuses = 0.
Proof.
  intros Hall Hne. induction Hall as [|s l -> _ IH]; [done|].
  rewrite tally_cons, IH. by rewrite decide_False.
Qed.

Lemma tally_nonneg status statuses : 0 ≤ tally status statuses.
Proof. unfold tally. lia. Qed.

(** The loop of lines 63-65 never throws; it executes the children as [run]
    does and adds to each counter the number of children that reported
    its key. *)
Lemma forEach_count_child tick (nodes : list (Node Tick World)) counter w :
  (∀ status, is_Some (counter !! status)) →
  ∃ counter',
    forEach (count_child tick) nodes (counter, w)
      = Normal (counter', snd (run nodes tick w)) ∧
    ∀ status, counter' !! status
      = Some (count counter status + tally status (fst (run nodes tick w))).
Proof.
  revert counter w. induction nodes as [|node rest IH]; intros counter w Hdom.
  - exists counter. split; [done|]. intros status.
    destruct (Hdom status) as [n Hn].
    unfold count. rewrite Hn, tally_nil. simpl. f_equal. lia.
  - cbn [forEach run]. unfold count_child at 1. cbn [fst snd].
    destruct (_execute node tick w) as [s w1] eqn:Hs. cbn [bind].
    destruct (IH (alter Z.succ s counter) w1) as (counter' & Hrun & Hcount).
    { intros status. rewrite lookup_alter. case_decide; [|done].
      subst. destruct (Hdom status) as [n ->]. by eexists. }
    exists counter'. destruct (run rest tick w1) as [statuses w2] eqn:Hrest.
    split; [exact Hrun|].
    intros status. rewrite Hcount. cbn [fst]. f_equal.
    unfold count. rewrite tally_cons, lookup_alter.
    destruct (Hdom status) as [n Hn].
    destruct (decide (s = status)) as [->|Hne].
    + rewrite Hn. simpl. lia.
    + lia.
Qed.

(** [tick] as a function of what the children report. *)
Lemma tick_run this tick w :
  Parallel.tick this tick w =
  Normal (threshold_rule (F this) (S this)
            (tally SUCCESS (fst (run (children this) tick w)))
            (tally FAILURE (fst (run (children this) tick w))),
          snd (run (children this) tick w)).
Proof.
  unfold Parallel.tick.
  destruct (forEach_count_child tick (children this) counter0 w)
    as (counter & -> & Hcount).
  { intros status. rewrite counter0_lookup. by eexists. }
  cbn. unfold threshold_rule.
  unfold count. rewrite !Hcount. unfold count. rewrite !counter0_lookup. cbn.
  destruct (_ >=? S this); [done|]. by destruct (_ >=? F this).
Qed.

(** Observation does not change what the children do; it records one
    [_execute] call per child, in the order of the list. *)
Lemma run_watch (nodes : list (Node Tick World)) tick w log :
  run (watch <$> nodes) tick (w, log) =
  (fst (run nodes tick w),
   (snd (run nodes tick w),
    log ++ ((λ node, Called "_execute" (id node)) <$> nodes))).
Proof.
  revert w log. induction nodes as [|node rest IH]; intros w log.
  - cbn. by rewrite app_nil_r.
  - cbn [fmap list_fmap run watch _execute fst snd].
    destruct (_execute node tick w) as [status w1].
    change (list_fmap _ _ watch rest) with (watch <$> rest).
    rewrite IH. destruct (run rest tick w1) as [statuses w2]. cbn [fst snd].
    by rewrite <- app_assoc.
Qed.

(** Whatever states are wanted of the children, there are children that
    report them. *)
Lemma run_constant (statuses : list Status) tick w :
  run ((λ status, constant (String.EmptyString) status) <$> statuses) tick w
    = (statuses, w).
Proof.
  induction statuses as [|status rest IH]; [done|].
  cbn [fmap list_fmap run constant _execute].
  change (list_fmap _ _ ?f rest) with (f <$> rest). by rewrite IH.
Qed.

(** C1.  One call of [tick] returns SUCCESS exactly when at least [S]
    children reported SUCCESS; when fewer did, it returns FAILURE exactly
    when at least [F] children reported FAILURE; when neither threshold
    is reached it returns RUNNING.  The SUCCESS threshold is looked at
    first, so it wins when both are reached.  The children are arbitrary,
    and so is what they report. *)
Theorem tick_threshold_rule this tick w :
  ∃ status,
    Parallel.tick this tick w = Normal (status, snd (run (children this) tick w)) ∧
    (status = SUCCESS ↔
       S this ≤ tally SUCCESS (fst (run (children this) tick w))) ∧
    (tally SUCCESS (fst (run (children this) tick w)) < S this →
       (status = FAILURE ↔
          F this ≤ tally FAILURE (fst (run (children this) tick w)))) ∧
    (tally SUCCESS (fst (run (children this) tick w)) < S this →
     tally FAILURE (fst (run (children this) tick w)) < F this →
       status = RUNNING).
Proof.
  eexists. split; [apply tick_run|]. unfold threshold_rule.
  destruct (Z.geb_spec (tally SUCCESS (fst (run (children this) tick w))) (S this));
    [|destruct (Z.geb_spec (tally FAILURE (fst (run (children this) tick w))) (F this))];
    repeat split; intros; try done; lia.
Qed.

(** C8.  Without children the counts are all zero: [tick] returns SUCCESS
    if [S <= 0], else FAILURE if [F <= 0], else RUNNING, and touches
    nothing. *)
Theorem tick_no_children this tick w :
  children this = [] →
  Parallel.tick this tick w =
    Normal (if S this <=? 0 then SUCCESS
            else if F this <=? 0 then FAILURE
            else RUNNING, w).
Proof.
  intros Hnil. rewrite tick_run, Hnil. cbn [run fst snd]. unfold threshold_rule.
  rewrite !tally_nil, !Z.geb_leb. done.
Qed.

(** C10.  [tick] never returns ERROR.  The children that report ERROR are
    counted, under their own key, and that count is not looked at: the
    result is the threshold rule on the SUCCESS and FAILURE counts alone,
    so when every child reports ERROR the result is the one of a node
    without children. *)
Theorem tick_never_error this tick w :
  ∃ status counter w',
    forEach (count_child tick) (children this) (counter0, w) = Normal (counter, w') ∧
    count counter ERROR = tally ERROR (fst (run (children this) tick w)) ∧
    Parallel.tick this tick w = Normal (status, w') ∧
    status ≠ ERROR ∧
    status = threshold_rule (F this) (S this)
               (tally SUCCESS (fst (run (children this) tick w)))
               (tally FAILURE (fst (run (children this) tick w))) ∧
    (Forall (λ s, s = ERROR) (fst (run (children this) tick w)) →
       status = threshold_rule (F this) (S this) 0 0).
Proof.
  destruct (forEach_count_child tick (children this) counter0 w)
    as (counter & Hloop & Hcount).
  { intros status. rewrite counter0_lookup. by eexists. }
  eexists _, counter, _. split; [exact Hloop|]. split.
  { unfold count. rewrite Hcount. unfold count. by rewrite counter0_lookup. }
  split; [apply tick_run|]. split; [|split; [done|]].
  - unfold threshold_rule. by repeat case_match.
  - intros Hall. by rewrite !(tally_other ERROR).
Qed.
End ParallelTick.

Section ParallelObserved.
Import Js Parallel.
Context {Tick World : Type}.
Implicit Types (this : ParallelNode Tick World) (tick : Tick) (w : World).

(** C6.  During one call of [tick] every child is called exactly once,
    through [_execute] and not through its raw tick method, first child
    first; no call is left out, whatever the earlier children reported.
    An observer that logs the calls made to the children sees exactly the
    list of the children, and the observed run returns what the
    unobserved one does. *)
Theorem tick_executes_each_child_once this tick w log :
  ∃ status w',
    Parallel.tick this tick w = Normal (status, w') ∧
    Parallel.tick (watched this) tick (w, log) =
      Normal (status,
              (w', log ++ ((λ node, Called "_execute" (id node)) <$> children this))).
Proof.
  do 2 eexists. split; [apply tick_run|].
  rewrite tick_run. cbn [watched F S children]. by rewrite run_watch.
Qed.
End ParallelObserved.

(** The three scenarios of the specification, and two more. *)
Section ParallelScenarios.
Import Js Parallel.

Example scenario_success :
  Parallel.tick (three SUCCESS SUCCESS FAILURE) () () = Normal (SUCCESS, ()).
Proof. reflexivity. Qed.

Example scenario_failure :
  Parallel.tick (three FAILURE FAILURE SUCCESS) () () = Normal (FAILURE, ()).
Proof. reflexivity. Qed.

Example scenario_running :
  Parallel.tick (three RUNNING SUCCESS FAILURE) () () = Normal (RUNNING, ()).
Proof. reflexivity. Qed.

Example scenario_all_error :
  Parallel.tick (three ERROR ERROR ERROR) () () = Normal (RUNNING, ()).
Proof. reflexivity. Qed.

Example scenario_log :
  Parallel.tick (watched (three FAILURE ERROR SUCCESS)) () ((), []) =
  Normal (RUNNING,
          ((), [Called "_execute" "a"; Called "_execute" "b"; Called "_execute" "c"])).
Proof. reflexivity. Qed.

Lemma tick_no_children_witness :
  children (childless 3 0) = [] ∧
  Parallel.tick (childless 3 0) () () = Normal (SUCCESS, ()).
Proof.
  split; [reflexivity|].
  exact (tick_no_children (childless 3 0) () () eq_refl).
Defined.
End ParallelScenarios.

(** * Properties of [LoadProject] *)

Section Completions.
Import Js.
Context {A St : Type}.
Implicit Types (f : A → St → completion St) (l : list A) (s : St).

Lemma bind_Normal {X Y} (c : completion X) (k : X → completion Y) y :
  (x ← c; k x) = Normal y → ∃ x, c = Normal x ∧ k x = Normal y.
Proof. destruct c as [x|e]; [by exists x|done]. Qed.

Lemma bind_Throw {X Y} (c : completion X) (k : X → completion Y) :
  (∃ e, c = Throw e) → ∃ e, (x ← c; k x) = Throw e.
Proof. intros [e ->]. by exists e. Qed.

Lemma forEach_app f l1 l2 s :
  forEach f (l1 ++ l2) s = (s' ← forEach f l1 s; forEach f l2 s').
Proof.
  revert s. induction l1 as [|x l1 IH]; intros s; [done|].
  cbn [app forEach]. destruct (f x s) as [s1|e]; [apply IH|done].
Qed.

(** An element on which the callback always throws makes the whole loop
    throw, at that element or before it. *)
Lemma forEach_throws f l x :
  x ∈ l → (∀ s, ∃ e, f x s = Throw e) → ∀ s, ∃ e, forEach f l s = Throw e.
Proof.
  intros Hx Hthrow. induction l as [|y l IH]; intros s.
  - by apply elem_of_nil in Hx.
  - cbn [forEach]. destruct (f y s) as [s1|e] eqn:Hy; [|by exists e].
    apply elem_of_cons in Hx as [->|Hx].
    + destruct (Hthrow s) as [e He]. congruence.
    + by apply IH.
Qed.

(** What every normal round preserves, the loop preserves. *)
Lemma forEach_preserves (R : St → St → Prop) f l :
  (∀ s, R s s) → (∀ s1 s2 s3, R s1 s2 → R s2 s3 → R s1 s3) →
  (∀ x s s', x ∈ l → f x s = Normal s' → R s s') →
  ∀ s s', forEach f l s = Normal s' → R s s'.
Proof.
  intros Hrefl Htrans. induction l as [|x l IH]; intros Hstep s s' Hrun.
  - injection Hrun as <-. apply Hrefl.
  - cbn [forEach] in Hrun. destruct (f x s) as [s1|e] eqn:Hx; [|done].
    apply (Htrans _ s1).
    + apply (Hstep x); [left|done].
    + apply IH; [|done]. intros y t t' Hy. apply Hstep. by right.
Qed.
End Completions.

Ltac inv_bind H :=
  let x := fresh "x" in
  let Hx := fresh "H" x in
  apply bind_Normal in H as (x & Hx & H).

Section Heap.
Import Js Loader.
Local Open Scope nat_scope.
Implicit Types (h : heap) (l : loc) (p : gmap string value).

Lemma keeps_refl k l h : keeps k l h h.
Proof. intros p Hp. by exists p. Qed.

Lemma keeps_trans k l h1 h2 h3 : keeps k l h1 h2 → keeps k l h2 h3 → keeps k l h1 h3.
Proof.
  intros H12 H23 p Hp. destruct (H12 p Hp) as (p2 & Hp2 & Hk2).
  destruct (H23 p2 Hp2) as (p3 & Hp3 & Hk3). exists p3. split; [done|congruence].
Qed.

Lemma keeps_app k l h ext : keeps k l h (h ++ ext).
Proof. intros p Hp. exists p. split; [|done]. by apply lookup_app_l_Some. Qed.

Lemma keeps_set_prop_ne_key k k' l l' v h : k ≠ k' → keeps k l h (set_prop l' k' v h).
Proof.
  intros Hk p Hp. unfold set_prop. destruct (h !! l') as [[p'|elems]|] eqn:Hl'; [|by eauto..].
  destruct (decide (l = l')) as [->|Hne].
  - exists (<[k' := v]> p'). rewrite list_lookup_insert_eq by by eapply lookup_lt_Some.
    split; [done|]. rewrite lookup_insert_ne by done. congruence.
  - exists p. by rewrite list_lookup_insert_ne.
Qed.

Lemma keeps_set_prop_ne_loc k k' l l' v h : l ≠ l' → keeps k l h (set_prop l' k' v h).
Proof.
  intros Hne p Hp. unfold set_prop. destruct (h !! l') as [[p'|elems]|]; [|by eauto..].
  exists p. by rewrite list_lookup_insert_ne.
Qed.

Lemma keeps_push k l a v h h' : push a v h = Normal h' → keeps k l h h'.
Proof.
  intros Hpush p Hp. destruct a as [| | | | | | | |la]; try done. cbn in Hpush.
  destruct (h !! la) as [[p'|elems]|] eqn:Hla; try done. injection Hpush as <-.
  assert (l ≠ la) by congruence. exists p. by rewrite list_lookup_insert_ne.
Qed.

Lemma set_prop_length l k v h : length (set_prop l k v h) = length h.
Proof. unfold set_prop. destruct (h !! l) as [[?|?]|]; by rewrite ?length_insert. Qed.

Lemma push_length a v h h' : push a v h = Normal h' → length h' = length h.
Proof.
  destruct a as [| | | | | | | |la]; try done. cbn.
  destruct (h !! la) as [[?|?]|]; try done. intros [= <-]. by rewrite length_insert.
Qed.

(** Writing into an object allocated after [h] leaves [h] alone. *)
Lemma set_prop_app l k v h ext :
  length h ≤ l → ∃ ext', set_prop l k v (h ++ ext) = h ++ ext' ∧ length ext' = length ext.
Proof.
  intros Hl. unfold set_prop. destruct ((h ++ ext) !! l) as [[p|elems]|]; [|by eauto..].
  exists (<[l - length h := CObj (<[k := v]> p)]> ext).
  rewrite insert_app_r_alt by done. by rewrite length_insert.
Qed.

Lemma set_prop_obj h l k v p :
  h !! l = Some (CObj p) → set_prop l k v h = <[l := CObj (<[k := v]> p)]> h.
Proof. intros Hl. unfold set_prop. by rewrite Hl. Qed.

Lemma get_prop_ref h l k : ∃ v, get_prop h (VRef l) k = Normal v.
Proof. cbn. destruct (h !! l) as [[?|?]|]; by eauto. Qed.

Lemma grows_refl a h : grows a h h.
Proof. intros elems Ha. exists []. by rewrite app_nil_r. Qed.

Lemma grows_trans a h1 h2 h3 : grows a h1 h2 → grows a h2 h3 → grows a h1 h3.
Proof.
  intros H12 H23 elems Ha. destruct (H12 _ Ha) as [m1 H2].
  destruct (H23 _ H2) as [m2 H3]. exists (m1 ++ m2). by rewrite app_assoc.
Qed.

Lemma grows_app a h ext : grows a h (h ++ ext).
Proof. intros elems Ha. exists []. rewrite app_nil_r. by apply lookup_app_l_Some. Qed.

Lemma grows_set_prop a l k v h : grows a h (set_prop l k v h).
Proof.
  intros elems Ha. exists []. rewrite app_nil_r. unfold set_prop.
  destruct (h !! l) as [[p|els]|] eqn:Hl; [|done..].
  rewrite list_lookup_insert_ne; [done|]. congruence.
Qed.

Lemma grows_push a arr v h h' : push arr v h = Normal h' → grows a h h'.
Proof.
  intros Hpush elems Ha. destruct arr as [| | | | | | | |l]; try done. cbn in Hpush.
  destruct (h !! l) as [[p|els]|] eqn:Hl; try done. injection Hpush as <-.
  destruct (decide (a = l)) as [->|Hne].
  - exists [v]. rewrite Hl in Ha. injection Ha as <-.
    apply list_lookup_insert_eq. by eapply lookup_lt_Some.
  - exists []. rewrite app_nil_r. by rewrite list_lookup_insert_ne.
Qed.

Lemma grows_assign a o k v h h' : assign o k v h = Normal h' → grows a h h'.
Proof.
  destruct o; try done; intros [= <-]; try apply grows_refl. apply grows_set_prop.
Qed.

Lemma assign_length o k v h h' : assign o k v h = Normal h' → length h' = length h.
Proof.
  destruct o; try done; intros [= <-]; try done. apply set_prop_length.
Qed.

(** An assignment to another property, or to another object, leaves a
    property as it is. *)
Lemma keeps_assign_ne_key k k' l o v h h' :
  k ≠ k' → assign o k' v h = Normal h' → keeps k l h h'.
Proof.
  intros Hne. destruct o; try done; intros [= <-]; try apply keeps_refl.
  by apply keeps_set_prop_ne_key.
Qed.

Lemma keeps_assign_ne_loc k k' l o v h h' :
  o ≠ VRef l → assign o k' v h = Normal h' → keeps k l h h'.
Proof.
  intros Hne. destruct o as [| | | | | | | |l']; try done; intros [= <-]; try apply keeps_refl.
  apply keeps_set_prop_ne_loc. congruence.
Qed.
Lemma get_prop_obj h l k p :
  h !! l = Some (CObj p) → get_prop h (VRef l) k = Normal (default VUndef (p !! k)).
Proof. intros Hl. cbn. by rewrite Hl. Qed.
End Heap.

Section PlainObjects.
Import Js.
Implicit Types (own : gmap string value) (k : string) (v : value).

(** Whatever a plain object inherits is an object of the engine, hence
    truthy, and no object of the heap. *)
Lemma Object_prototype_native k v : Object_prototype !! k = Some v → is_native v = true.
Proof.
  intros Hk.
  apply (map_Forall_lookup_1 (λ _ v, is_native v = true) Object_prototype k v); [|done].
  apply (bool_decide_unpack
           (map_Forall (λ (_ : string) (v : value), is_native v = true) Object_prototype)).
  vm_compute. exact I.
Qed.

Lemma Object_prototype_truthy k v : Object_prototype !! k = Some v → truthy v = true.
Proof. intros Hk. apply Object_prototype_native in Hk. by destruct v. Qed.


Lemma plain_get_own own k v : own !! k = Some v → plain_get own k = v.
Proof. intros Hk. unfold plain_get. by rewrite Hk. Qed.

Lemma plain_get_inherited own k :
  own !! k = None → plain_get own k = default VUndef (Object_prototype !! k).
Proof. intros Hk. unfold plain_get. by rewrite Hk. Qed.

Lemma plain_get_native own k :
  own !! k = None → plain_get own k = VUndef ∨ is_native (plain_get own k) = true.
Proof.
  intros Hk. rewrite plain_get_inherited by done.
  destruct (Object_prototype !! k) as [v|] eqn:Hinh; [right|by left].
  by apply (Object_prototype_native k).
Qed.

Lemma plain_get_absent own k :
  own !! k = None → Object_prototype !! k = None → plain_get own k = VUndef.
Proof. intros Hk Hinh. rewrite plain_get_inherited by done. by rewrite Hinh. Qed.

Lemma plain_has_own own k : is_Some (own !! k) → plain_has own k = true.
Proof. intros Hk. unfold plain_has. by rewrite bool_decide_true. Qed.

Lemma plain_has_absent own k :
  own !! k = None → Object_prototype !! k = None → plain_has own k = false.
Proof.
  intros Hk Hinh. unfold plain_has. rewrite Hk, Hinh.
  rewrite !bool_decide_false; [done|by intros [? ?]..].
Qed.
End PlainObjects.

Section FirstPass.
Import Js Loader.
Local Open Scope nat_scope.
Variable b3 : Namespace.
Implicit Types (h : heap) (l : loc) (p : gmap string value).
Implicit Types (trees : gmap string loc) (ts : list TreeSpec) (tree : TreeSpec).

Lemma set_or_fresh h k v p :
  set_or (length h) k v (h ++ [CObj p]) = Normal (h ++ [CObj (filled k v p)]).
Proof.
  unfold set_or, set_prop. cbn [get_prop].
  rewrite (list_lookup_middle h [] (CObj p) (length h)) by done. cbn.
  rewrite insert_app_r_alt by done. by rewrite Nat.sub_diag.
Qed.

Lemma create_tree_created tree trees h :
  create_tree b3 tree (trees, h) =
  Normal (<[tree_id tree := length h]> trees,
          h ++ [CObj (BehaviorTree_from b3 (length h) tree)]).
Proof.
  unfold create_tree, alloc, BehaviorTree_from.
  rewrite set_or_fresh. cbn [mbind completion_bind bind].
  rewrite set_or_fresh. cbn [mbind completion_bind bind].
  rewrite set_or_fresh. cbn [mbind completion_bind bind].
  by rewrite set_or_fresh.
Qed.

(** The first [forEach] never throws. *)
Lemma forEach_create_tree ts trees h :
  forEach (create_tree b3) ts (trees, h) = Normal (created b3 ts trees h).
Proof.
  revert trees h. induction ts as [|tree rest IH]; intros trees h; [done|].
  cbn [forEach created]. rewrite create_tree_created. cbn. apply IH.
Qed.

Lemma created_heap ts trees h :
  ∃ ext, (created b3 ts trees h).2 = h ++ ext ∧ length ext = length ts.
Proof.
  revert trees h. induction ts as [|tree rest IH]; intros trees h.
  - exists []. by rewrite app_nil_r.
  - cbn [created].
    destruct (IH (<[tree_id tree := length h]> trees)
                 (h ++ [CObj (BehaviorTree_from b3 (length h) tree)])) as (ext & -> & Hlen).
    eexists. rewrite <- app_assoc. split; [done|]. cbn. by rewrite Hlen.
Qed.

(** One object per specification, in the order of the list. *)
Lemma created_object ts trees h i tree :
  ts !! i = Some tree →
  (created b3 ts trees h).2 !! (length h + i)
    = Some (CObj (BehaviorTree_from b3 (length h + i) tree)).
Proof.
  revert trees h i. induction ts as [|t rest IH]; intros trees h i Hi; [done|].
  cbn [created]. destruct i as [|i].
  - injection Hi as ->.
    destruct (created_heap rest (<[tree_id tree := length h]> trees)
                 (h ++ [CObj (BehaviorTree_from b3 (length h) tree)])) as (ext & -> & _).
    rewrite Nat.add_0_r, <- app_assoc. by apply list_lookup_middle.
  - cbn in Hi. specialize (IH (<[tree_id t := length h]> trees)
                 (h ++ [CObj (BehaviorTree_from b3 (length h) t)]) i Hi).
    rewrite length_app in IH. cbn in IH.
    by replace (length h + S i) with (length h + 1 + i) by lia.
Qed.

Lemma created_lookup_notin ts trees h k :
  k ∉ tree_id <$> ts → (created b3 ts trees h).1 !! k = trees !! k.
Proof.
  revert trees h. induction ts as [|t rest IH]; intros trees h Hk; [done|].
  cbn [created]. rewrite fmap_cons in Hk. apply not_elem_of_cons in Hk as [Hne Hk].
  rewrite IH by done. by rewrite lookup_insert_ne.
Qed.

(** Every entry of the mapping is inherited or is one of the new objects,
    filed under the id of its specification. *)
Lemma created_lookup_inv ts trees h k l :
  (created b3 ts trees h).1 !! k = Some l →
  trees !! k = Some l ∨
  ∃ i tree, ts !! i = Some tree ∧ tree_id tree = k ∧ l = length h + i.
Proof.
  revert trees h. induction ts as [|t rest IH]; intros trees h Hk; [by left|].
  cbn [created] in Hk. apply IH in Hk as [Hk|(i & tree & Hi & Hid & ->)].
  - destruct (decide (tree_id t = k)) as [<-|Hne].
    + rewrite lookup_insert_eq in Hk. injection Hk as <-.
      right. exists 0, t. by rewrite Nat.add_0_r.
    + rewrite lookup_insert_ne in Hk by done. by left.
  - right. exists (S i), tree. rewrite length_app. cbn. repeat split; [done..|lia].
Qed.

(** Every specification finds a tree under its id: its own, or that of a
    later specification with the same id. *)
Lemma created_lookup_in ts trees h tree :
  tree ∈ ts →
  ∃ i tree', ts !! i = Some tree' ∧ tree_id tree' = tree_id tree ∧
             (created b3 ts trees h).1 !! tree_id tree = Some (length h + i).
Proof.
  revert trees h tree. induction ts as [|t rest IH]; intros trees h tree Hin.
  - by apply elem_of_nil in Hin.
  - cbn [created].
    destruct (decide (tree_id tree ∈ tree_id <$> rest)) as [Hlater|Hlast].
    + apply list_elem_of_fmap in Hlater as (t' & Hid & Ht').
      destruct (IH (<[tree_id t := length h]> trees)
                  (h ++ [CObj (BehaviorTree_from b3 (length h) t)]) t' Ht')
        as (i & t'' & Hi & Hid' & Hl).
      exists (S i), t''. rewrite length_app in Hl. cbn in Hl.
      rewrite Hid. repeat split; [done|congruence|].
      rewrite Hl. f_equal. lia.
    + rewrite created_lookup_notin by done.
      apply elem_of_cons in Hin as [->|Hin].
      * exists 0, t. rewrite lookup_insert_eq, Nat.add_0_r. done.
      * exfalso. apply Hlast. apply list_elem_of_fmap. by exists tree.
Qed.

Lemma created_lookup_NoDup ts trees h i tree :
  NoDup (tree_id <$> ts) → ts !! i = Some tree →
  (created b3 ts trees h).1 !! tree_id tree = Some (length h + i).
Proof.
  revert trees h i. induction ts as [|t rest IH]; intros trees h i Hnd Hi; [done|].
  rewrite fmap_cons in Hnd. apply NoDup_cons in Hnd as [Hfirst Hnd].
  cbn [created]. destruct i as [|i].
  - injection Hi as ->. rewrite created_lookup_notin by done.
    by rewrite lookup_insert_eq, Nat.add_0_r.
  - cbn in Hi. rewrite (IH _ _ i) by done. rewrite length_app. cbn. f_equal. lia.
Qed.
End FirstPass.

Section SecondPass.
Import Js Loader.
Local Open Scope nat_scope.
Variable b3 : Namespace.
Variable trees : gmap string loc.
Variable names : gmap string value.
Implicit Types (h : heap) (l : loc) (p : gmap string value).
Implicit Types (tempNodes : gmap string value) (spec : NodeSpec) (id : string).
Implicit Types (nodes : list (string * NodeSpec)) (tree : TreeSpec).

Lemma set_or_app l k v h ext :
  length h ≤ l → ∃ ext', set_or l k v (h ++ ext) = Normal (h ++ ext').
Proof.
  intros Hl. unfold set_or. destruct (get_prop_ref (h ++ ext) l k) as [old ->]. cbn.
  destruct (set_prop_app l k (or v old) h ext Hl) as (ext' & -> & _). by eexists.
Qed.

Lemma new_extends cls arg h node h' :
  new cls arg h = Normal (node, h') → ∃ ext, h' = h ++ ext ∧ length h ≤ node.
Proof.
  unfold new, alloc. destruct cls as [construct|v]; [|done].
  destruct (construct arg) as [inst|e]; [|done]. cbn.
  destruct (kids inst) as [elems|]; intros [= <- <-].
  - eexists. rewrite <- app_assoc. split; [done|]. rewrite length_app. lia.
  - by eexists.
Qed.

Lemma tree_at_tree k a : trees !! k = Some a → tree_at trees k = VRef a.
Proof. intros Hk. apply plain_get_own. by rewrite lookup_fmap, Hk. Qed.

Lemma tree_at_inherited k :
  trees !! k = None → tree_at trees k = default VUndef (Object_prototype !! k).
Proof. intros Hk. apply plain_get_inherited. by rewrite lookup_fmap, Hk. Qed.

Lemma tree_at_absent k :
  trees !! k = None → Object_prototype !! k = None → tree_at trees k = VUndef.
Proof. intros Hk Hinh. rewrite tree_at_inherited by done. by rewrite Hinh. Qed.

(** [trees[k]] is falsy exactly when [k] is neither the id of a tree nor
    an inherited name. *)
Lemma tree_at_falsy k :
  truthy (tree_at trees k) = false ↔ trees !! k = None ∧ Object_prototype !! k = None.
Proof.
  split.
  - intros Hfalsy. destruct (trees !! k) as [a|] eqn:Hk.
    { by rewrite (tree_at_tree k a) in Hfalsy. }
    split; [done|]. rewrite tree_at_inherited in Hfalsy by done.
    destruct (Object_prototype !! k) as [v|] eqn:Hinh; [|done].
    cbn in Hfalsy. by rewrite (Object_prototype_truthy k v Hinh) in Hfalsy.
  - intros [Hk Hinh]. by rewrite tree_at_absent.
Qed.

(** An object that [trees] yields is a tree of the mapping. *)
Lemma tree_at_ref k n : tree_at trees k = VRef n → trees !! k = Some n.
Proof.
  intros Hn. destruct (trees !! k) as [a|] eqn:Htree.
  - rewrite (tree_at_tree _ _ Htree) in Hn. congruence.
  - unfold tree_at in Hn.
    destruct (plain_get_native (VRef <$> trees) k) as [Hundef|Hnative];
      [by rewrite lookup_fmap, Htree|congruence|].
    by rewrite Hn in Hnative.
Qed.

(** A slot is no object of the heap unless it owns one. *)
Lemma temp_ref tempNodes id n : temp tempNodes id = VRef n → tempNodes !! id = Some (VRef n).
Proof.
  unfold temp. intros Hn. destruct (tempNodes !! id) as [v|] eqn:Hid.
  - by rewrite (plain_get_own _ _ _ Hid) in Hn; subst.
  - destruct (plain_get_native tempNodes id) as [Hundef|Hnative]; [done|congruence|].
    by rewrite Hn in Hnative.
Qed.

(** A name that is the id of a tree: the slot is the tree of the mapping,
    and nothing is allocated or written. *)
Lemma instantiate_tree id spec tempNodes h a :
  trees !! spec_name spec = Some a →
  instantiate b3 trees names (id, spec) (tempNodes, h)
    = Normal (<[id := VRef a]> tempNodes, h).
Proof. intros Ha. unfold instantiate. by rewrite (tree_at_tree _ a). Qed.

(** A name that every object inherits, such as [toString]: [trees] has
    it too, so the slot is that member of [Object.prototype]. *)
Lemma instantiate_inherited id spec tempNodes h v :
  trees !! spec_name spec = None → Object_prototype !! spec_name spec = Some v →
  instantiate b3 trees names (id, spec) (tempNodes, h)
    = Normal (<[id := v]> tempNodes, h).
Proof.
  intros Htree Hinh. unfold instantiate. rewrite tree_at_inherited by done.
  rewrite Hinh. cbn [default from_option Datatypes.id].
  by rewrite (Object_prototype_truthy _ v Hinh).
Qed.

(** The other names get as far as the registry. *)
Lemma instantiate_resolve id spec tempNodes h :
  trees !! spec_name spec = None → Object_prototype !! spec_name spec = None →
  instantiate b3 trees names (id, spec) (tempNodes, h) =
  (cls ← resolve b3 names (spec_name spec) h;
   '(node, h) ← new cls (spec_properties spec) h;
   h ← set_or node "id" (spec_id spec) h;
   h ← set_or node "title" (spec_title spec) h;
   h ← set_or node "description" (spec_description spec) h;
   h ← set_or node "properties" (spec_properties spec) h;
   Normal (<[id := VRef node]> tempNodes, h)).
Proof. intros Htree Hinh. unfold instantiate. by rewrite tree_at_absent. Qed.

(** A name of the custom mapping: [this._nodes] is read off [undefined]. *)
Lemma instantiate_custom id spec tempNodes h :
  trees !! spec_name spec = None → Object_prototype !! spec_name spec = None →
  is_Some (names !! spec_name spec) →
  instantiate b3 trees names (id, spec) (tempNodes, h)
    = Throw (TypeError "Cannot read property _nodes of undefined").
Proof.
  intros Htree Hinh Hcustom. rewrite instantiate_resolve by done.
  unfold resolve. by rewrite plain_has_own.
Qed.

(** A name that nothing knows. *)
Lemma instantiate_invalid id spec tempNodes h :
  trees !! spec_name spec = None → Object_prototype !! spec_name spec = None →
  names !! spec_name spec = None → members b3 !! spec_name spec = None →
  instantiate b3 trees names (id, spec) (tempNodes, h)
    = Throw (EvalError (invalid_node_name (spec_name spec))).
Proof.
  intros Htree Hinh Hcustom Hmember. rewrite instantiate_resolve by done.
  unfold resolve. rewrite plain_has_absent by done. by rewrite Hmember.
Qed.

(** A name that only the namespace knows: the class found there is
    instantiated with the properties of the specification, and the new
    node gets id, title, description and properties from the
    specification wherever it gives them. *)
Lemma instantiate_builtin id spec tempNodes h construct inst :
  trees !! spec_name spec = None → Object_prototype !! spec_name spec = None →
  names !! spec_name spec = None →
  members b3 !! spec_name spec = Some (Class construct) →
  construct (spec_properties spec) = Normal inst → kids inst = None →
  instantiate b3 trees names (id, spec) (tempNodes, h) =
  Normal (<[id := VRef (length h)]> tempNodes,
          h ++ [CObj (filled "properties" (spec_properties spec)
                        (filled "description" (spec_description spec)
                           (filled "title" (spec_title spec)
                              (filled "id" (spec_id spec) (fields inst)))))]).
Proof.
  intros Htree Hinh Hcustom Hmember Hinst Hkids. rewrite instantiate_resolve by done.
  unfold resolve, new, alloc. rewrite plain_has_absent by done. rewrite Hmember.
  cbn [mbind completion_bind bind]. rewrite Hinst. cbn [mbind completion_bind bind].
  rewrite Hkids. cbn [mbind completion_bind bind].
  rewrite set_or_fresh. cbn [mbind completion_bind bind].
  rewrite set_or_fresh. cbn [mbind completion_bind bind].
  rewrite set_or_fresh. cbn [mbind completion_bind bind].
  by rewrite set_or_fresh.
Qed.

(** A round of the first loop fills the slot [id] and only adds to the heap. *)
Lemma instantiate_extends id spec tempNodes h tempNodes' h' :
  instantiate b3 trees names (id, spec) (tempNodes, h) = Normal (tempNodes', h') →
  (∃ v, tempNodes' = <[id := v]> tempNodes) ∧ ∃ ext, h' = h ++ ext.
Proof.
  unfold instantiate. destruct (truthy (tree_at trees (spec_name spec))).
  { intros [= <- <-]. split; [by eexists|]. exists []. by rewrite app_nil_r. }
  intros Hrun. inv_bind Hrun. destruct (new x (spec_properties spec) h) as [[node h1]|e] eqn:Hnew;
    [|done].
  apply new_extends in Hnew as (ext & -> & Hnode). cbn [mbind completion_bind bind] in Hrun.
  destruct (set_or_app node "id" (spec_id spec) h ext Hnode) as [ext1 Heq].
  rewrite Heq in Hrun. cbn [mbind completion_bind bind] in Hrun.
  destruct (set_or_app node "title" (spec_title spec) h ext1 Hnode) as [ext2 Heq2].
  rewrite Heq2 in Hrun. cbn [mbind completion_bind bind] in Hrun.
  destruct (set_or_app node "description" (spec_description spec) h ext2 Hnode)
    as [ext3 Heq3].
  rewrite Heq3 in Hrun. cbn [mbind completion_bind bind] in Hrun.
  destruct (set_or_app node "properties" (spec_properties spec) h ext3 Hnode)
    as [ext4 Heq4].
  rewrite Heq4 in Hrun. cbn [mbind completion_bind bind] in Hrun. injection Hrun as <- <-.
  split; by eexists.
Qed.

Lemma forEach_instantiate_extends nodes tempNodes h tempNodes' h' :
  forEach (instantiate b3 trees names) nodes (tempNodes, h) = Normal (tempNodes', h') →
  ∃ ext, h' = h ++ ext.
Proof.
  intros Hrun.
  apply (forEach_preserves (λ s s' : gmap string value * list cell, ∃ ext, s'.2 = s.2 ++ ext)
           (instantiate b3 trees names) nodes) in Hrun; [done|..].
  - intros s. exists []. by rewrite app_nil_r.
  - intros s1 s2 s3 [e1 H1] [e2 H2]. exists (e1 ++ e2). by rewrite H2, H1, app_assoc.
  - intros [id spec] [tn1 h1] [tn2 h2] _ Hstep.
    by apply instantiate_extends in Hstep as [_ Hext].
Qed.

(** The slots of the ids that the loop does not visit stay as they are. *)
Lemma forEach_instantiate_other nodes tempNodes h tempNodes' h' id :
  forEach (instantiate b3 trees names) nodes (tempNodes, h) = Normal (tempNodes', h') →
  id ∉ nodes.*1 → tempNodes' !! id = tempNodes !! id.
Proof.
  revert tempNodes h. induction nodes as [|[id1 spec1] rest IH]; intros tempNodes h Hrun Hid.
  - by injection Hrun as <- <-.
  - cbn [forEach] in Hrun. inv_bind Hrun. destruct x as [tn1 h1].
    rewrite fmap_cons in Hid. apply not_elem_of_cons in Hid as [Hne Hid]. cbn in Hne.
    apply instantiate_extends in Hx as [[v ->] _].
    rewrite (IH _ _ Hrun Hid). by rewrite lookup_insert_ne.
Qed.

(** After the first loop, the slot of a specification whose name is found
    in [trees] holds what was found. *)
Lemma forEach_instantiate_found nodes tempNodes h tempNodes' h' id spec :
  forEach (instantiate b3 trees names) nodes (tempNodes, h) = Normal (tempNodes', h') →
  NoDup nodes.*1 → (id, spec) ∈ nodes → truthy (tree_at trees (spec_name spec)) = true →
  tempNodes' !! id = Some (tree_at trees (spec_name spec)).
Proof.
  revert tempNodes h. induction nodes as [|[id1 spec1] rest IH];
    intros tempNodes h Hrun Hnd Hin Hfound.
  - by apply elem_of_nil in Hin.
  - cbn [forEach] in Hrun. inv_bind Hrun. destruct x as [tn1 h1].
    rewrite fmap_cons in Hnd. apply NoDup_cons in Hnd as [Hfirst Hnd]. cbn in Hfirst.
    apply elem_of_cons in Hin as [[= <- <-]|Hin].
    + unfold instantiate in Hx. rewrite Hfound in Hx. injection Hx as <- <-.
      rewrite (forEach_instantiate_other _ _ _ _ _ id Hrun Hfirst).
      by rewrite lookup_insert_eq.
    + by eapply IH.
Qed.

(** So the slot of a specification that names a tree holds that tree of
    the mapping. *)
Lemma forEach_instantiate_tree nodes tempNodes h tempNodes' h' id spec a :
  forEach (instantiate b3 trees names) nodes (tempNodes, h) = Normal (tempNodes', h') →
  NoDup nodes.*1 → (id, spec) ∈ nodes → trees !! spec_name spec = Some a →
  tempNodes' !! id = Some (VRef a).
Proof.
  intros Hrun Hnd Hin Ha. rewrite <- (tree_at_tree _ _ Ha).
  eapply forEach_instantiate_found; [done..|]. by rewrite (tree_at_tree _ _ Ha).
Qed.

(** The second loop pushes onto arrays and sets [child]: it leaves every
    other property of every object alone. *)
Lemma connect_keeps tempNodes entry h h' k l :
  k ≠ "child" → connect b3 tempNodes entry h = Normal h' → keeps k l h h'.
Proof.
  intros Hk. destruct entry as [id spec]. unfold connect. intros Hrun. inv_bind Hrun.
  destruct (strict_eq x (COMPOSITE b3) && bool_decide (is_Some (spec_children spec))).
  - revert Hrun. apply forEach_preserves.
    + apply keeps_refl.
    + apply keeps_trans.
    + intros cid h1 h2 _ Hstep. inv_bind Hstep. by eapply keeps_push.
  - destruct (strict_eq x (DECORATOR b3) && _).
    + unfold assign in Hrun.
      destruct (temp tempNodes id); try done; injection Hrun as <-;
        [apply keeps_refl..|by apply keeps_set_prop_ne_key].
    + injection Hrun as <-. apply keeps_refl.
Qed.

Lemma forEach_connect_keeps tempNodes nodes h h' k l :
  k ≠ "child" → forEach (connect b3 tempNodes) nodes h = Normal h' → keeps k l h h'.
Proof.
  intros Hk. apply forEach_preserves.
  - apply keeps_refl.
  - apply keeps_trans.
  - intros entry h1 h2 _. by apply connect_keeps.
Qed.

(** Loading a tree sets the [root] of its own tree object, to the slot of
    its root id. *)
Lemma load_tree_root tree h h' b p :
  load_tree b3 trees names tree h = Normal h' →
  trees !! tree_id tree = Some b → h !! b = Some (CObj p) →
  ∃ tempNodes h1 p',
    forEach (instantiate b3 trees names) (tree_nodes tree) (∅, h) = Normal (tempNodes, h1) ∧
    h' !! b = Some (CObj p') ∧
    p' !! "root" = Some (temp tempNodes (tree_root tree)).
Proof.
  unfold load_tree. intros Hrun Hb Hp. inv_bind Hrun. destruct x as [tempNodes h1].
  inv_bind Hrun. rewrite (tree_at_tree _ _ Hb) in Hrun. cbn in Hrun. injection Hrun as <-.
  destruct (forEach_instantiate_extends _ _ _ _ _ Hx) as [ext ->].
  destruct (forEach_connect_keeps _ _ _ _ "id" b ltac:(done) Hx0 p) as (p2 & Hp2 & _).
  { by apply lookup_app_l_Some. }
  exists tempNodes, (h ++ ext), (<["root" := temp tempNodes (tree_root tree)]> p2).
  split; [done|]. unfold set_prop. rewrite Hp2.
  rewrite list_lookup_insert_eq by by eapply lookup_lt_Some.
  by rewrite lookup_insert_eq.
Qed.

(** Loading a tree leaves the [root] of the other tree objects alone. *)
Lemma load_tree_keeps tree h h' l :
  load_tree b3 trees names tree h = Normal h' →
  trees !! tree_id tree ≠ Some l → keeps "root" l h h'.
Proof.
  unfold load_tree. intros Hrun Hl. inv_bind Hrun. destruct x as [tempNodes h1].
  inv_bind Hrun.
  destruct (forEach_instantiate_extends _ _ _ _ _ Hx) as [ext ->].
  eapply keeps_trans; [apply keeps_app|].
  eapply keeps_trans; [by eapply (forEach_connect_keeps _ _ _ _ "root")|].
  destruct (trees !! tree_id tree) as [b|] eqn:Hb.
  - rewrite (tree_at_tree _ _ Hb) in Hrun. cbn in Hrun. injection Hrun as <-.
    apply keeps_set_prop_ne_loc. congruence.
  - unfold tree_at in Hrun.
    destruct (plain_get_native (VRef <$> trees) (tree_id tree)) as [Hundef|Hnative];
      [by rewrite lookup_fmap, Hb|by rewrite Hundef in Hrun|].
    destruct (plain_get (VRef <$> trees) (tree_id tree)); try done.
    injection Hrun as <-. apply keeps_refl.
Qed.
End SecondPass.

Section Loading.
Import Js Loader.
Local Open Scope nat_scope.
Variable b3 : Namespace.
Implicit Types (h : heap) (l : loc) (p : gmap string value).
Implicit Types (ts : list TreeSpec) (tree : TreeSpec) (spec : NodeSpec) (id : string).
Implicit Types (names : option (gmap string value)).

(** [LoadProject] on a project: the first pass, then the second. *)
Lemma LoadProject_project ts names h :
  LoadProject b3 (Project ts) names h =
  (h2 ← forEach (load_tree b3 (created b3 ts ∅ h).1 (default ∅ names)) ts
                (created b3 ts ∅ h).2;
   Normal (Some (created b3 ts ∅ h).1, h2, [])).
Proof.
  unfold LoadProject. cbn [typeof_data]. rewrite bool_decide_false by (by intros []).
  rewrite forEach_create_tree. by destruct (created b3 ts ∅ h).
Qed.

(** The guard of lines 133-136. *)
Lemma LoadProject_not_object data names h :
  typeof_data data ≠ "object" →
  LoadProject b3 data names h = Normal (None, h, ["No project data provided."]).
Proof. intros Htype. unfold LoadProject. by rewrite bool_decide_true. Qed.



(** No object of the first pass is filed under two ids. *)
Lemma created_injective ts h k1 k2 l :
  (created b3 ts ∅ h).1 !! k1 = Some l → (created b3 ts ∅ h).1 !! k2 = Some l → k1 = k2.
Proof.
  intros H1 H2.
  apply created_lookup_inv in H1 as [H1|(i1 & t1 & Hi1 & <- & ->)]; [done|].
  apply created_lookup_inv in H2 as [H2|(i2 & t2 & Hi2 & <- & Heq)]; [done|].
  assert (i1 = i2) as -> by lia. congruence.
Qed.

(** A node specification on which [instantiate] throws in every state
    makes the load of the whole project throw. *)
Lemma LoadProject_throws ts names h tree entry :
  tree ∈ ts → entry ∈ tree_nodes tree →
  (∀ st, ∃ e, instantiate b3 (created b3 ts ∅ h).1 (default ∅ names) entry st = Throw e) →
  ∃ e, LoadProject b3 (Project ts) names h = Throw e.
Proof.
  intros Htree Hentry Hthrow. rewrite LoadProject_project.
  apply bind_Throw. apply (forEach_throws _ ts tree Htree).
  intros h1. unfold load_tree. apply bind_Throw.
  by apply (forEach_throws _ (tree_nodes tree) entry).
Qed.


(** C3, what the code does with a custom node.  A project in which some
    node specification has a name of the custom mapping (and that name is
    not the id of a tree) never loads: [LoadProject] throws.  The custom
    class is never looked up in [names], let alone instantiated.  The one
    way past the error is a custom node named like a member of
    [Object.prototype]: [trees] inherits that member, so the slot is bound
    to it as if it were a tree, and the custom class is not used either. *)
Theorem custom_node_never_loads ts custom h tree id spec :
  tree ∈ ts → (id, spec) ∈ tree_nodes tree →
  spec_name spec ∉ tree_id <$> ts → is_Some (custom !! spec_name spec) →
  match Object_prototype !! spec_name spec with
  | None => ∃ e, LoadProject b3 (Project ts) (Some custom) h = Throw e
  | Some member =>
      ∀ tempNodes h1,
        instantiate b3 (created b3 ts ∅ h).1 custom (id, spec) (tempNodes, h1)
          = Normal (<[id := member]> tempNodes, h1)
  end.
Proof.
  intros Htree Hentry Hname Hcustom.
  destruct (Object_prototype !! spec_name spec) as [member|] eqn:Hinh.
  - intros tempNodes h1. apply instantiate_inherited; [|done].
    by rewrite created_lookup_notin.
  - apply (LoadProject_throws ts (Some custom) h tree (id, spec) Htree Hentry).
    intros [tempNodes h1]. eexists. apply instantiate_custom; [|done..].
    by rewrite created_lookup_notin.
Qed.

(** C5, as the code has it.  In a project with ordinary ids, let a node
    specification have a name that is neither the id of a tree, nor a name
    that every object inherits from [Object.prototype] (which [trees] has
    as well), nor a key of the custom mapping, nor a member of the [b3]
    namespace.  Then
    [LoadProject] throws and returns no mapping; and when the load gets as
    far as that specification (the trees before it load, and so do the
    nodes before it in its own tree) what it throws is the EvalError whose
    message quotes the name. *)
Theorem invalid_name_aborts ts names h tree id spec :
  ordinary ts → tree ∈ ts → (id, spec) ∈ tree_nodes tree →
  spec_name spec ∉ tree_id <$> ts →
  Object_prototype !! spec_name spec = None →
  default ∅ names !! spec_name spec = None →
  members b3 !! spec_name spec = None →
  (∃ e, LoadProject b3 (Project ts) names h = Throw e) ∧
  (∀ before after pre post trees h1 h2 st,
     ts = before ++ tree :: after →
     tree_nodes tree = pre ++ (id, spec) :: post →
     forEach (create_tree b3) ts (∅, h) = Normal (trees, h1) →
     forEach (load_tree b3 trees (default ∅ names)) before h1 = Normal h2 →
     forEach (instantiate b3 trees (default ∅ names)) pre (∅, h2) = Normal st →
     LoadProject b3 (Project ts) names h
       = Throw (EvalError (invalid_node_name (spec_name spec)))).
Proof.
  intros _ Htree Hentry Hname Hinh Hcustom Hmember.
  assert (∀ st, instantiate b3 (created b3 ts ∅ h).1 (default ∅ names) (id, spec) st
                = Throw (EvalError (invalid_node_name (spec_name spec)))) as Hthrow.
  { intros [tempNodes h1]. apply instantiate_invalid; [|done..].
    by rewrite created_lookup_notin. }
  split.
  - apply (LoadProject_throws ts names h tree (id, spec) Htree Hentry).
    intros st. eexists. apply Hthrow.
  - intros before after pre post trees h1 h2 st Hts Hnodes Hfirst Hbefore Hpre.
    rewrite forEach_create_tree in Hfirst. rewrite LoadProject_project.
    destruct (created b3 ts ∅ h) as [trees' h1'] eqn:Hcreated.
    injection Hfirst as -> ->. cbn [fst snd] in *.
    rewrite Hts at 1. rewrite forEach_app, Hbefore. cbn [mbind completion_bind bind forEach].
    unfold load_tree at 1. rewrite Hnodes, forEach_app, Hpre.
    cbn [mbind completion_bind bind forEach]. by rewrite Hthrow.
Qed.

(** C7, input by input.  Of the values that are not objects, the guard
    of line 133 catches all but one: for [undefined], a boolean, a number
    or a string the code logs an error and returns [undefined], and
    touches nothing; but [typeof null] is ["object"], so [null] passes the
    guard, and line 142 throws on reading a property of it. *)
Theorem LoadProject_not_an_object v names h :
  is_object v = false →
  LoadProject b3 (Data v) names h =
    match v with
    | VNull => Throw (TypeError "Cannot read property trees of null")
    | _ => Normal (None, h, ["No project data provided."])
    end.
Proof.
  intros Hv. destruct v; try discriminate Hv.
  - by apply LoadProject_not_object.
  - reflexivity.
  - by apply LoadProject_not_object.
  - by apply LoadProject_not_object.
  - by apply LoadProject_not_object.
Qed.
End Loading.

(** * Construction of a Parallel node *)

Section ParallelInitialize.
Import Js Parallel.
Local Open Scope nat_scope.
Variable Composite_initialize : loc → heap → completion heap.
Variable prototype : gmap string value.
Implicit Types (h : heap) (this : loc) (globals : gmap string value).

(** C4, where no global variable is called [parameters].  Line 35 assigns
    to a name that nothing declares; the file is strict code, so the
    assignment throws a ReferenceError, [initialize] stops there, and
    [new b3.Parallel(...)] throws with it: [this.F] and [this.S] are never
    set. *)
Theorem initialize_throws this settings params globals h :
  globals !! "parameters" = None →
  initialize Composite_initialize this settings globals h
    = Throw (ReferenceError "parameters is not defined") ∧
  construct Composite_initialize prototype params globals h
    = Throw (ReferenceError "parameters is not defined").
Proof.
  intros Hglobal.
  assert (∀ this settings h,
            initialize Composite_initialize this settings globals h
            = Throw (ReferenceError "parameters is not defined")) as Hinit.
  { intros this' settings' h'. unfold initialize, assign_global.
    destruct (or_empty_object settings' h') as [v h1].
    rewrite decide_False; [done|]. rewrite Hglobal. by intros [? ?]. }
  split; [apply Hinit|].
  unfold construct, alloc. destruct (or_empty_object params _) as [settings0 h1].
  by rewrite Hinit.
Qed.

End ParallelInitialize.

(** * The sample projects, loaded *)

Section Loaded.
Import Js Loader.
Local Open Scope nat_scope.

(** C2, as stated, fails on [project_AB].  The root of B is the node that
    names A; after the load it is the tree object of A (location 0), and
    the root of A is a different object, the Succeeder at location 2. *)
Lemma subtree_slot_is_not_the_root :
  ∃ mapping h,
    LoadProject b3_sample (Project project_AB) None [] = Normal (Some mapping, h, []) ∧
    mapping !! "A" = Some 0 ∧ mapping !! "B" = Some 1 ∧
    get_prop h (VRef 1) "root" = Normal (VRef 0) ∧
    get_prop h (VRef 0) "root" = Normal (VRef 2) ∧
    get_prop h (VRef 1) "root" ≠ get_prop h (VRef 0) "root".
Proof.
  eexists _, _. split; [vm_compute; reflexivity|].
  repeat split; try (vm_compute; reflexivity). vm_compute. discriminate.
Qed.

(** The same in a children array: the Sequence of tree C (location 3)
    has the array at location 2 for its children, and after the load that
    array holds the Succeeder and the tree object of A (location 1), whose
    own root is the node at location 5. *)
Example subtree_child_is_the_tree :
  ∃ mapping h,
    LoadProject b3_sample (Project project_CA) None [] = Normal (Some mapping, h, []) ∧
    mapping !! "A" = Some 1 ∧
    get_prop h (VRef 3) "children" = Normal (VRef 2) ∧
    h !! 2 = Some (CArr [VRef 4; VRef 1]) ∧
    get_prop h (VRef 1) "root" = Normal (VRef 5).
Proof.
  eexists _, _. split; [vm_compute; reflexivity|].
  repeat split; vm_compute; reflexivity.
Qed.

(** C3 at work: [project_custom], whose node is named after an entry of
    the custom mapping, is not loaded. *)
Example custom_node_TypeError :
  LoadProject b3_sample (Project project_custom) (Some custom_names) []
    = Throw (TypeError "Cannot read property _nodes of undefined").
Proof. vm_compute; reflexivity. Qed.

(** The custom node [Mine] stops the load; the custom node [toString] is
    not used either: its slot gets the method that [trees] inherits. *)
Lemma custom_node_never_loads_witness :
  is_Some (custom_names !! "Mine") ∧ is_Some (custom_toString !! "toString") ∧
  (∃ e, LoadProject b3_sample (Project project_custom) (Some custom_names) [] = Throw e) ∧
  (∀ tempNodes h1,
     instantiate b3_sample (created b3_sample project_toString ∅ []).1 custom_toString
                 ("1", node "toString") (tempNodes, h1)
       = Normal (<["1" := VNative "Object.prototype.toString"]> tempNodes, h1)).
Proof.
  assert (is_Some (custom_names !! "Mine")) as Hcustom by (by eexists).
  assert (is_Some (custom_toString !! "toString")) as Hcustom' by (by eexists).
  split; [exact Hcustom|]. split; [exact Hcustom'|]. split.
  - apply (custom_node_never_loads b3_sample project_custom custom_names []
             (tree "T" "1" [("1", node "Mine")]) "1" (node "Mine")).
    + left.
    + left.
    + compute_done.
    + exact Hcustom.
  - apply (custom_node_never_loads b3_sample project_toString custom_toString []
             (tree "T" "1" [("1", node "toString")]) "1" (node "toString")).
    + left.
    + left.
    + compute_done.
    + exact Hcustom'.
Defined.

(** C5, as stated, fails three times.  A node named [createUUID] has a
    name that is no tree, no custom node and no node class, and the project
    loads and returns a mapping.  So does a project with a node named
    [toString], which is in no registry at all: [trees] inherits a
    property of that name, and the method becomes the root of the tree.
    And when a custom node stands before the node with the unknown name,
    the error is the TypeError of the custom node, which says nothing of
    the unknown name. *)
Lemma invalid_name_not_always_reported :
  (∃ mapping h,
     LoadProject b3_sample (Project project_uuid) None [] = Normal (Some mapping, h, [])) ∧
  (members b3_sample !! "toString" = None ∧
   ∃ mapping h,
     LoadProject b3_sample (Project project_toString) None [] = Normal (Some mapping, h, []) ∧
     mapping !! "T" = Some 0 ∧
     get_prop h (VRef 0) "root" = Normal (VNative "Object.prototype.toString")) ∧
  LoadProject b3_sample (Project project_custom_bogus) (Some custom_names) []
    = Throw (TypeError "Cannot read property _nodes of undefined") ∧
  TypeError "Cannot read property _nodes of undefined"
    ≠ EvalError (invalid_node_name "Bogus").
Proof.
  split; [eexists _, _; vm_compute; reflexivity|].
  split.
  { split; [vm_compute; reflexivity|]. eexists _, _.
    split; [vm_compute; reflexivity|]. split; vm_compute; reflexivity. }
  split; [vm_compute; reflexivity|discriminate].
Qed.

Lemma LoadProject_not_an_object_witness :
  is_object VNull = false ∧
  LoadProject b3_sample (Data VNull) None []
    = Throw (TypeError "Cannot read property trees of null").
Proof.
  split; [reflexivity|].
  exact (LoadProject_not_an_object b3_sample VNull None [] eq_refl).
Defined.

(** C7 where the guard does its work. *)
Example LoadProject_undefined :
  LoadProject b3_sample (Data VUndef) None []
    = Normal (None, [], ["No project data provided."]).
Proof. reflexivity. Qed.

Example LoadProject_number :
  LoadProject b3_sample (Data (VNum 3)) (Some custom_names) []
    = Normal (None, [], ["No project data provided."]).
Proof. reflexivity. Qed.

Lemma invalid_name_aborts_witness :
  Object_prototype !! "Bogus" = None ∧ members b3_sample !! "Bogus" = None ∧
  (∃ e, LoadProject b3_sample (Project project_bogus) None [] = Throw e) ∧
  LoadProject b3_sample (Project project_bogus) None []
    = Throw (EvalError (invalid_node_name "Bogus")).
Proof.
  assert (Object_prototype !! "Bogus" = None) as Hinh by (vm_compute; reflexivity).
  assert (members b3_sample !! "Bogus" = None) as Hmember by (vm_compute; reflexivity).
  split; [exact Hinh|]. split; [exact Hmember|].
  destruct (invalid_name_aborts b3_sample project_bogus None [] tree_bogus "2" (node "Bogus"))
    as [Hthrows Hreached].
  - split; compute_done.
  - right; left.
  - right; left.
  - compute_done.
  - exact Hinh.
  - reflexivity.
  - exact Hmember.
  - split; [exact Hthrows|].
    eapply (Hreached [tree_A] [] [("1", node "Succeeder")] []).
    + reflexivity.
    + reflexivity.
    + reflexivity.
    + reflexivity.
    + reflexivity.
Defined.
End Loaded.

Section Constructed.
Import Js Parallel.

Lemma initialize_throws_witness :
  (∅ : gmap string value) !! "parameters" = None ∧
  initialize (λ _ h, Normal h) 1 (VRef 0) ∅ (settings_heap ++ [CObj ∅])
    = Throw (ReferenceError "parameters is not defined") ∧
  construct (λ _ h, Normal h) ∅ (VRef 0) ∅ settings_heap
    = Throw (ReferenceError "parameters is not defined").
Proof.
  split; [reflexivity|].
  exact (initialize_throws (λ _ h, Normal h) ∅ 1 (VRef 0) (VRef 0) ∅
           (settings_heap ++ [CObj ∅]) eq_refl).
Defined.
End Constructed.

(** * More on [Parallel.tick] *)

Section ParallelThresholds.
Import Js Parallel.
Context {Tick World : Type}.
Implicit Types (this : ParallelNode Tick World) (tick : Tick) (w : World).
Implicit Types (status : Status) (statuses : list Status).

Lemma run_length (nodes : list (Node Tick World)) tick w :
  length (fst (run nodes tick w)) = length nodes.
Proof.
  revert w. induction nodes as [|node rest IH]; intros w; [done|].
  cbn [run]. destruct (_execute node tick w) as [status w1].
  specialize (IH w1). destruct (run rest tick w1) as [statuses w2].
  cbn [fst length] in *. by rewrite IH.
Qed.

Lemma tally_le status statuses : tally status statuses ≤ Z.of_nat (length statuses).
Proof. unfold tally. pose proof (length_filter (λ s, s = status) statuses). lia. Qed.


Lemma tally_Permutation status statuses1 statuses2 :
  statuses1 ≡ₚ statuses2 → tally status statuses1 = tally status statuses2.
Proof. intros Hperm. unfold tally. by rewrite Hperm. Qed.

(** With [S <= 0], and so with the default [S = 0], the first test of
    line 67 cannot fail: [tick] returns SUCCESS whatever the children
    report, even when all of them fail. *)
Theorem tick_success_without_threshold this tick w :
  S this ≤ 0 →
  Parallel.tick this tick w = Normal (SUCCESS, snd (run (children this) tick w)).
Proof.
  intros HS. rewrite tick_run. unfold threshold_rule.
  pose proof (tally_nonneg SUCCESS (fst (run (children this) tick w))).
  destruct (Z.geb_spec (tally SUCCESS (fst (run (children this) tick w))) (S this));
    [done|lia].
Qed.

(** Thresholds above the number of children are out of reach: [tick]
    returns RUNNING on every call, whatever the children report. *)
Theorem tick_running_forever this tick w :
  Z.of_nat (length (children this)) < S this →
  Z.of_nat (length (children this)) < F this →
  Parallel.tick this tick w = Normal (RUNNING, snd (run (children this) tick w)).
Proof.
  intros HS HF. rewrite tick_run. unfold threshold_rule.
  pose proof (tally_le SUCCESS (fst (run (children this) tick w))).
  pose proof (tally_le FAILURE (fst (run (children this) tick w))).
  rewrite run_length in *.
  destruct (Z.geb_spec (tally SUCCESS (fst (run (children this) tick w))) (S this));
    [lia|].
  destruct (Z.geb_spec (tally FAILURE (fst (run (children this) tick w))) (F this));
    [lia|done].
Qed.


(** The result depends on how many children report each state, not on
    which children do: two nodes with the same thresholds whose children
    report the same states in another order return the same state. *)
Theorem tick_order_irrelevant this1 this2 tick1 tick2 w1 w2 :
  F this1 = F this2 → S this1 = S this2 →
  fst (run (children this1) tick1 w1) ≡ₚ fst (run (children this2) tick2 w2) →
  ∃ status,
    Parallel.tick this1 tick1 w1 = Normal (status, snd (run (children this1) tick1 w1)) ∧
    Parallel.tick this2 tick2 w2 = Normal (status, snd (run (children this2) tick2 w2)).
Proof.
  intros HF HS Hperm. eexists. rewrite !tick_run. split; [done|].
  by rewrite HF, HS, !(tally_Permutation _ _ _ Hperm).
Qed.
End ParallelThresholds.

Section ParallelThresholdsWitnesses.
Import Js Parallel.

Lemma tick_success_without_threshold_witness :
  Parallel.tick {| F := 0; S := 0; children := [constant "a" FAILURE; constant "b" ERROR] |}
                () () = Normal (SUCCESS, ()).
Proof.
  exact (tick_success_without_threshold
           {| F := 0; S := 0; children := [constant "a" FAILURE; constant "b" ERROR] |}
           () () ltac:(done)).
Defined.

Lemma tick_running_forever_witness :
  Parallel.tick {| F := 3; S := 3; children := [constant "a" SUCCESS; constant "b" SUCCESS] |}
                () () = Normal (RUNNING, ()).
Proof.
  exact (tick_running_forever
           {| F := 3; S := 3; children := [constant "a" SUCCESS; constant "b" SUCCESS] |}
           () () ltac:(done) ltac:(done)).
Defined.

Lemma tick_order_irrelevant_witness :
  ∃ status,
    Parallel.tick (three SUCCESS FAILURE SUCCESS) () () = Normal (status, ()) ∧
    Parallel.tick (three FAILURE SUCCESS SUCCESS) () () = Normal (status, ()).
Proof.
  apply (tick_order_irrelevant (three SUCCESS FAILURE SUCCESS)
           (three FAILURE SUCCESS SUCCESS) () () () () eq_refl eq_refl).
  cbn. apply perm_swap.
Defined.
End ParallelThresholdsWitnesses.

(** * More on the construction of a Parallel node *)

Section ParallelSettings.
Import Js Parallel.
Local Open Scope nat_scope.
Variable Composite_initialize : loc → heap → completion heap.
Variable prototype : gmap string value.
Implicit Types (h : heap) (this : loc) (globals : gmap string value).



(** The default of line 35 protects [parameters], not [settings]: called
    by hand without settings, [initialize] gets past lines 35 and 36 and
    throws on reading [settings.F]. *)
Theorem initialize_without_settings this globals h h1 old :
  globals !! "parameters" = Some old →
  Composite_initialize this (h ++ [CObj ∅]) = Normal h1 →
  initialize Composite_initialize this VUndef globals h
    = Throw (TypeError "Cannot read property F of undefined") ∧
  initialize Composite_initialize this VNull globals h
    = Throw (TypeError "Cannot read property F of null").
Proof.
  intros Hglobal Hbase. unfold initialize, or_empty_object, assign_global, alloc.
  cbn [truthy]. rewrite decide_True by by eexists.
  cbn [mbind completion_bind bind]. by rewrite Hbase.
Qed.
End ParallelSettings.

Section ParallelSettingsWitnesses.
Import Js Parallel.
Local Open Scope nat_scope.



Lemma initialize_without_settings_witness :
  initialize (λ _ h, Normal h) 0 VUndef {["parameters" := VNull]} [CObj ∅]
    = Throw (TypeError "Cannot read property F of undefined") ∧
  initialize (λ _ h, Normal h) 0 VNull {["parameters" := VNull]} [CObj ∅]
    = Throw (TypeError "Cannot read property F of null").
Proof.
  exact (initialize_without_settings (λ _ h, Normal h) 0 {["parameters" := VNull]}
           [CObj ∅] [CObj ∅; CObj ∅] VNull eq_refl eq_refl).
Defined.
End ParallelSettingsWitnesses.

(** * Properties of [createUUID] *)

Section UuidFacts.
Import Js Uuid.
Local Open Scope nat_scope.
Implicit Types (random : nat → nat).

Lemma substr1_hex d : d < 16 → substr1 hexDigits d = String (hex d) EmptyString.
Proof. intros Hd. do 16 (destruct d as [|d]; [reflexivity|]). lia. Qed.

Lemma clock_seq_hex d :
  d < 16 →
  substr1 hexDigits
    (Z.to_nat (Z.lor (Z.land (to_int32 (String (hex d) EmptyString)) 3) 8))
    = String (hex (clock_seq d)) EmptyString.
Proof. intros Hd. do 16 (destruct d as [|d]; [reflexivity|]). lia. Qed.

Lemma fill_36 random :
  fill random 0 36 [] = (λ i, substr1 hexDigits (random i)) <$> seq 0 36.
Proof. reflexivity. Qed.

Lemma get_string_of_list_ascii (l : list Ascii.ascii) i :
  String.get i (String.string_of_list_ascii l) = l !! i.
Proof.
  revert i. induction l as [|c l IH]; intros [|i]; cbn; auto.
Qed.

Lemma fill_36_hex random :
  (∀ j, j < 36 → random j < 16) →
  fill random 0 36 [] = (λ i, String (hex (random i)) EmptyString) <$> seq 0 36.
Proof.
  intros Hdraw. rewrite fill_36. apply list_fmap_ext.
  intros i j Hj. apply lookup_seq in Hj as [-> Hi]. apply substr1_hex, Hdraw. lia.
Qed.

(** The whole result, character by character. *)
Lemma createUUID_expected random :
  (∀ j, j < 36 → random j < 16) →
  createUUID random = String.string_of_list_ascii (expected random <$> seq 0 36).
Proof.
  intros Hdraw. unfold createUUID. rewrite fill_36_hex by done.
  cbv -[join hex clock_seq to_int32 substr1 Z.to_nat Z.lor Z.land hexDigits].
  rewrite clock_seq_hex by (apply Hdraw; lia).
  reflexivity.
Qed.

(** Whatever is drawn, the identifier has 36 characters. *)
Theorem createUUID_length random :
  (∀ j, j < 36 → random j < 16) → String.length (createUUID random) = 36.
Proof. intros Hdraw. by rewrite createUUID_expected. Qed.

(** The layout of the identifier: hyphens at positions 8, 13, 18 and 23,
    the version digit 4 at position 14, at position 19 what line 29 makes
    of the digit drawn there, and everywhere else the hexadecimal digit
    that was drawn for the position.  The digits drawn for positions 8,
    13, 14, 18 and 23 are overwritten. *)
Theorem createUUID_layout random i :
  (∀ j, j < 36 → random j < 16) → i < 36 →
  String.get i (createUUID random) = Some (expected random i).
Proof.
  intros Hdraw Hi. rewrite createUUID_expected by done.
  rewrite get_string_of_list_ascii, list_lookup_fmap.
  by rewrite lookup_seq_lt.
Qed.

(** Position 19 holds 8, 9, a or b.  Line 29 applies [&] to a character:
    a decimal digit counts with its two low bits, but a letter converts to
    NaN and counts as 0, so whenever a letter is drawn the position
    holds 8. *)
Theorem createUUID_clock_seq random :
  (∀ j, j < 36 → random j < 16) →
  ∃ c, String.get 19 (createUUID random) = Some c ∧
       c ∈ ["8"; "9"; "a"; "b"]%char ∧
       (10 ≤ random 19 → c = "8"%char) ∧
       (random 19 < 10 →
          c = hex (Z.to_nat (Z.lor (Z.land (Z.of_nat (random 19)) 3) 8))).
Proof.
  intros Hdraw. exists (hex (clock_seq (random 19))).
  split.
  { rewrite createUUID_expected by done.
    by rewrite get_string_of_list_ascii, list_lookup_fmap. }
  pose proof (Hdraw 19 ltac:(lia)) as Hd. unfold clock_seq.
  revert Hd. generalize (random 19). intros d Hd.
  split; [|split].
  - do 16 (destruct d as [|d]; [compute_done|]). lia.
  - intros Hletter. by rewrite (proj2 (Nat.ltb_ge _ _) Hletter).
  - intros Hdigit. by rewrite (proj2 (Nat.ltb_lt _ _) Hdigit).
Qed.
End UuidFacts.

Section UuidWitnesses.
Import Js Uuid.
Local Open Scope nat_scope.

Lemma createUUID_length_witness :
  String.length (createUUID (λ i, i `mod` 16)) = 36.
Proof.
  apply (createUUID_length (λ i, i `mod` 16)).
  intros j _. apply Nat.mod_upper_bound. discriminate.
Defined.

Lemma createUUID_layout_witness :
  String.get 14 (createUUID (λ i, i `mod` 16)) = Some "4"%char ∧
  String.get 20 (createUUID (λ i, i `mod` 16)) = Some "4"%char ∧
  String.get 23 (createUUID (λ i, i `mod` 16)) = Some "-"%char.
Proof.
  assert (∀ j, j < 36 → j `mod` 16 < 16) as Hdraw
    by (intros j _; apply Nat.mod_upper_bound; discriminate).
  split; [|split].
  - exact (createUUID_layout (λ i, i `mod` 16) 14 Hdraw ltac:(lia)).
  - exact (createUUID_layout (λ i, i `mod` 16) 20 Hdraw ltac:(lia)).
  - exact (createUUID_layout (λ i, i `mod` 16) 23 Hdraw ltac:(lia)).
Defined.

Lemma createUUID_clock_seq_witness :
  ∃ c, String.get 19 (createUUID (λ _, 13)) = Some c ∧
       c ∈ ["8"; "9"; "a"; "b"]%char ∧
       (10 ≤ 13 → c = "8"%char) ∧
       (13 < 10 → c = hex (Z.to_nat (Z.lor (Z.land (Z.of_nat 13) 3) 8))).
Proof.
  apply (createUUID_clock_seq (λ _, 13)). intros j _. lia.
Defined.

(** With a 13 at every draw: the letter d everywhere, and 8 at position 19. *)
Example createUUID_all_d :
  createUUID (λ _, 13) = "dddddddd-dddd-4ddd-8ddd-dddddddddddd".
Proof. reflexivity. Qed.
End UuidWitnesses.

(** * Properties of [Class] *)

Section ClassFacts.
Import Js Classes.
Local Open Scope nat_scope.
Variable foreign : value → string → value.
Implicit Types (h ext : list object) (l : loc) (k : string) (o : object) (v : value).

Lemma lookup_chain_own fuel h l o k v :
  h !! l = Some o → own o !! k = Some v → lookup_chain foreign (Datatypes.S fuel) h l k = v.
Proof. intros Hl Hk. cbn. by rewrite Hl, Hk. Qed.

Lemma get_own h l o k v :
  h !! l = Some o → own o !! k = Some v → get foreign h (VRef l) k = Normal v.
Proof.
  intros Hl Hk. unfold get. destruct h as [|o' h']; [done|].
  cbn [length]. by erewrite lookup_chain_own.
Qed.

(** The prototype of a plain object is [Object.prototype], which has no
    [initialize]. *)
Lemma beyond_Object_prototype k :
  beyond foreign (VNative "Object.prototype") k = plain_get ∅ k.
Proof. unfold beyond. by rewrite decide_True. Qed.

Lemma plain_initialize : plain_get ∅ "initialize" = VUndef.
Proof. vm_compute; reflexivity. Qed.

(** Among objects whose prototypes are older, the fuel does not matter
    once it exceeds the location. *)
Lemma lookup_chain_fuel h k fuel1 fuel2 l :
  older h → l < fuel1 → l < fuel2 →
  lookup_chain foreign fuel1 h l k = lookup_chain foreign fuel2 h l k.
Proof.
  intros Holder. revert fuel2 l.
  induction fuel1 as [|fuel1 IH]; intros fuel2 l H1 H2; [lia|].
  destruct fuel2 as [|fuel2]; [lia|]. cbn.
  destruct (h !! l) as [o|] eqn:Hl; [|done].
  destruct (own o !! k); [done|].
  destruct (proto o) as [| | | | | | | |l'] eqn:Hproto; try done.
  pose proof (Holder l o l' Hl Hproto). apply IH; lia.
Qed.

(** New objects do not change what the old ones inherit. *)
Lemma lookup_chain_app h ext k fuel l :
  older h → l < length h →
  lookup_chain foreign fuel (h ++ ext) l k = lookup_chain foreign fuel h l k.
Proof.
  intros Holder. revert l. induction fuel as [|fuel IH]; intros l Hl; [done|].
  cbn. rewrite lookup_app_l by done.
  destruct (h !! l) as [o|] eqn:Ho; [|done].
  destruct (own o !! k); [done|].
  destruct (proto o) as [| | | | | | | |l'] eqn:Hproto; try done.
  pose proof (Holder l o l' Ho Hproto). apply IH. lia.
Qed.

Lemma get_app h ext l k :
  older h → l < length h → get foreign (h ++ ext) (VRef l) k = get foreign h (VRef l) k.
Proof.
  intros Holder Hl. cbn. f_equal. rewrite lookup_chain_app by done.
  apply lookup_chain_fuel; [done|rewrite length_app; lia|done].
Qed.

(** The same for any value that is not a new object. *)
Lemma get_app_old h ext v k :
  older h → (∀ l, v = VRef l → l < length h) →
  get foreign (h ++ ext) v k = get foreign h v k.
Proof.
  intros Holder Hv. destruct v as [| | | | | | | |l]; try done.
  apply get_app; [done|]. by apply Hv.
Qed.

Lemma put_middle h1 o h2 k v :
  put (length h1) k v (h1 ++ o :: h2) =
  h1 ++ {| own := <[k := v]> (own o); proto := proto o; callable := callable o |} :: h2.
Proof.
  unfold put. rewrite alter_app_r_alt by done. by rewrite Nat.sub_diag.
Qed.
Implicit Types (entries : list (string * value)).

Lemma lookup_app_0 h o (t : list object) : (h ++ o :: t) !! length h = Some o.
Proof. by apply list_lookup_middle. Qed.

Lemma lookup_app_1 h o1 o2 (t : list object) :
  (h ++ o1 :: o2 :: t) !! (length h + 1) = Some o2.
Proof. rewrite lookup_app_r by lia. by replace (length h + 1 - length h) with 1 by lia. Qed.

Lemma lookup_app_2 h o1 o2 o3 (t : list object) :
  (h ++ o1 :: o2 :: o3 :: t) !! (length h + 2) = Some o3.
Proof. rewrite lookup_app_r by lia. by replace (length h + 2 - length h) with 2 by lia. Qed.

(** Where the chain leaves the heap. *)
Lemma get_beyond h l o k :
  h !! l = Some o → own o !! k = None → (∀ l', proto o ≠ VRef l') →
  get foreign h (VRef l) k = Normal (beyond foreign (proto o) k).
Proof.
  intros Hl Hk Hproto. unfold get. destruct h as [|o' h']; [done|].
  cbn [length lookup_chain]. rewrite Hl, Hk.
  destruct (proto o) as [| | | | | | | |l']; try done. by destruct (Hproto l').
Qed.

Lemma get_inherit h l o l' k :
  older h → h !! l = Some o → own o !! k = None → proto o = VRef l' →
  get foreign h (VRef l) k = get foreign h (VRef l') k.
Proof.
  intros Holder Hl Hk Hproto. unfold get. f_equal.
  pose proof (lookup_lt_Some _ _ _ Hl) as Hlt.
  pose proof (Holder _ _ _ Hl Hproto) as Hl'.
  destruct (length h) as [|n] eqn:Hn; [lia|].
  rewrite (lookup_chain_fuel h k (Datatypes.S n) n l') by (done || lia).
  cbn [lookup_chain]. by rewrite Hl, Hk, Hproto.
Qed.

Lemma get_ref h l k : ∃ v, get foreign h (VRef l) k = Normal v.
Proof. by eexists. Qed.

Lemma older_app h o :
  older h → (∀ l', proto o = VRef l' → l' < length h) → older (h ++ [o]).
Proof.
  intros Holder Ho l o' l' Hl Hproto.
  apply lookup_app_Some in Hl as [Hl|[Hlen Hl]]; [by eapply Holder|].
  apply list_lookup_singleton_Some in Hl as [Hl <-].
  specialize (Ho l' Hproto). lia.
Qed.

Lemma older_put h l k v : older h → older (put l k v h).
Proof.
  intros Holder l1 o l' Hl Hproto. unfold put in Hl.
  destruct (decide (l = l1)) as [->|Hne].
  - rewrite list_lookup_alter_eq in Hl. destruct (h !! l1) as [o1|] eqn:Ho1; [|done].
    injection Hl as <-. by eapply Holder.
  - rewrite list_lookup_alter_ne in Hl by done. by eapply Holder.
Qed.

(** The loop of lines 90-94 writes the entries into the prototype object. *)
Lemma forEach_set_prototype entries h1 oP h2 cls ocls :
  h1 !! cls = Some ocls → own ocls !! "prototype" = Some (VRef (length h1)) →
  forEach (λ entry h, set_prototype foreign cls entry.1 entry.2 h) entries (h1 ++ oP :: h2) =
  Normal (h1 ++ {| own := with_entries entries (own oP); proto := proto oP;
                   callable := callable oP |} :: h2).
Proof.
  intros Hcls Hprototype. revert oP.
  induction entries as [|[key v] rest IH]; intros oP; [by destruct oP|].
  cbn [forEach with_entries foldl fst snd]. unfold set_prototype at 1.
  rewrite (get_own _ cls ocls "prototype" (VRef (length h1)))
    by (done || by apply lookup_app_l_Some).
  cbn [mbind completion_bind bind set fst snd]. rewrite put_middle. cbn [bind].
  by rewrite IH.
Qed.

Lemma put_1 h a o (t : list object) k v :
  put (length h + 1) k v (h ++ a :: o :: t) = h ++ a :: written k v o :: t.
Proof.
  pose proof (put_middle (h ++ [a]) o t k v) as Hput.
  rewrite length_app, <- !app_assoc in Hput. exact Hput.
Qed.

Lemma put_2 h a b o (t : list object) k v :
  put (length h + 2) k v (h ++ a :: b :: o :: t) = h ++ a :: b :: written k v o :: t.
Proof.
  pose proof (put_middle (h ++ [a; b]) o t k v) as Hput.
  rewrite length_app, <- !app_assoc in Hput. exact Hput.
Qed.

Lemma set_prototype_1 h ocls o (t : list object) k v :
  own ocls !! "prototype" = Some (VRef (length h + 1)) →
  set_prototype foreign (length h) k v (h ++ ocls :: o :: t)
    = Normal (h ++ ocls :: written k v o :: t).
Proof.
  intros Hprototype. unfold set_prototype.
  rewrite (get_own _ (length h) ocls "prototype" (VRef (length h + 1)))
    by (done || apply lookup_app_0).
  cbn [mbind completion_bind bind set]. by rewrite put_1.
Qed.

Lemma set_prototype_2 h ocls b o (t : list object) k v :
  own ocls !! "prototype" = Some (VRef (length h + 2)) →
  set_prototype foreign (length h) k v (h ++ ocls :: b :: o :: t)
    = Normal (h ++ ocls :: b :: written k v o :: t).
Proof.
  intros Hprototype. unfold set_prototype.
  rewrite (get_own _ (length h) ocls "prototype" (VRef (length h + 2)))
    by (done || apply lookup_app_0).
  cbn [mbind completion_bind bind set]. by rewrite put_2.
Qed.

Lemma forEach_set_prototype_1 entries h ocls oP (t : list object) :
  own ocls !! "prototype" = Some (VRef (length h + 1)) →
  forEach (λ entry h', set_prototype foreign (length h) entry.1 entry.2 h') entries
          (h ++ ocls :: oP :: t) =
  Normal (h ++ ocls :: {| own := with_entries entries (own oP); proto := proto oP;
                          callable := callable oP |} :: t).
Proof.
  intros Hprototype.
  pose proof (forEach_set_prototype entries (h ++ [ocls]) oP t (length h) ocls) as Hloop.
  rewrite length_app, <- !app_assoc in Hloop. apply Hloop; [|done].
  by apply list_lookup_middle.
Qed.

Lemma forEach_set_prototype_2 entries h ocls b oP (t : list object) :
  own ocls !! "prototype" = Some (VRef (length h + 2)) →
  forEach (λ entry h', set_prototype foreign (length h) entry.1 entry.2 h') entries
          (h ++ ocls :: b :: oP :: t) =
  Normal (h ++ ocls :: b :: {| own := with_entries entries (own oP); proto := proto oP;
                               callable := callable oP |} :: t).
Proof.
  intros Hprototype.
  pose proof (forEach_set_prototype entries (h ++ [ocls; b]) oP t (length h) ocls) as Hloop.
  rewrite length_app, <- !app_assoc in Hloop. apply Hloop; [|done].
  by apply (list_lookup_middle h [b] ocls).
Qed.

(** Without a base class. *)
Lemma Class_no_base base properties h :
  truthy base = false →
  Class foreign base properties h =
  Normal (VRef (length h),
          h ++ [function_object ClassBody (length h + 1);
                {| own := with_entries (default [] properties)
                            (<["initialize" := VRef (length h + 2)]>
                               {["constructor" := VRef (length h)]});
                   proto := VNative "Object.prototype"; callable := None |};
                function_object EmptyBody (length h + 3);
                prototype_object (length h + 2)]).
Proof.
  intros Hbase. unfold Class, function. rewrite Hbase.
  cbn [mbind completion_bind bind].
  rewrite (get_own _ (length h) (function_object ClassBody (length h + 1)) "prototype"
             (VRef (length h + 1))) by (done || apply lookup_app_0).
  cbn [mbind completion_bind bind].
  rewrite (get_beyond _ (length h + 1) (prototype_object (length h)) "initialize")
    by (done || apply lookup_app_1).
  cbn [proto prototype_object]. rewrite beyond_Object_prototype, plain_initialize.
  cbn [mbind completion_bind bind truthy].
  rewrite length_app, <- !app_assoc. cbn [length app].
  rewrite set_prototype_1 by done. cbn [mbind completion_bind bind].
  destruct properties as [entries|]; cbn [mbind completion_bind bind default].
  - rewrite forEach_set_prototype_1 by done. cbn [bind]. do 3 f_equal.
    by replace (length h + 2 + 1) with (length h + 3) by lia.
  - do 3 f_equal. by replace (length h + 2 + 1) with (length h + 3) by lia.
Qed.

Lemma put_0 h o (t : list object) k v :
  put (length h) k v (h ++ o :: t) = h ++ written k v o :: t.
Proof. apply put_middle. Qed.

(** With a base class whose [prototype] is an object or [null]. *)
Lemma Class_with_base base properties h bp :
  truthy base = true →
  get foreign (h ++ [function_object ClassBody (length h + 1); prototype_object (length h)])
      base "prototype" = Normal bp →
  object_or_null bp = true →
  ∃ initialize,
    get foreign (h ++ [function_object ClassBody (length h + 2); prototype_object (length h);
               {| own := {["constructor" := VRef (length h)]}; proto := bp;
                  callable := None |}])
        (VRef (length h + 2)) "initialize" = Normal initialize ∧
    Class foreign base properties h =
    Normal (VRef (length h),
            if truthy initialize then
              h ++ [function_object ClassBody (length h + 2); prototype_object (length h);
                    {| own := with_entries (default [] properties)
                                {["constructor" := VRef (length h)]};
                       proto := bp; callable := None |}]
            else
              h ++ [function_object ClassBody (length h + 2); prototype_object (length h);
                    {| own := with_entries (default [] properties)
                                (<["initialize" := VRef (length h + 3)]>
                                   {["constructor" := VRef (length h)]});
                       proto := bp; callable := None |};
                    function_object EmptyBody (length h + 4);
                    prototype_object (length h + 3)]).
Proof.
  intros Hbase Hget Hbp.
  destruct (get_ref (h ++ [function_object ClassBody (length h + 2); prototype_object (length h);
               {| own := {["constructor" := VRef (length h)]}; proto := bp;
                  callable := None |}]) (length h + 2) "initialize") as [initialize Hinit].
  exists initialize. split; [done|].
  unfold Class, function. rewrite Hbase. cbn [mbind completion_bind bind]. rewrite Hget.
  cbn [mbind completion_bind bind].
  assert (Object_create bp
            (h ++ [function_object ClassBody (length h + 1); prototype_object (length h)])
          = Normal (VRef (length h + 2),
                    h ++ [function_object ClassBody (length h + 1); prototype_object (length h);
                          {| own := ∅; proto := bp; callable := None |}])) as ->.
  { unfold Object_create. rewrite length_app, <- app_assoc. cbn [length app].
    by destruct bp. }
  cbn [mbind completion_bind bind set]. rewrite put_0.
  replace (written "prototype" (VRef (length h + 2)) (function_object ClassBody (length h + 1)))
    with (function_object ClassBody (length h + 2))
    by (unfold written, function_object; cbn; by rewrite insert_singleton_eq).
  rewrite set_prototype_2 by done. cbn [mbind completion_bind bind].
  replace (written "constructor" (VRef (length h)) {| own := ∅; proto := bp; callable := None |})
    with {| own := {["constructor" := VRef (length h)]}; proto := bp; callable := None |}
    by (unfold written; cbn; by rewrite insert_empty).
  rewrite (get_own _ (length h) (function_object ClassBody (length h + 2)) "prototype"
             (VRef (length h + 2))) by (done || apply lookup_app_0).
  cbn [mbind completion_bind bind]. rewrite Hinit. cbn [mbind completion_bind bind].
  destruct (truthy initialize).
  - cbn [mbind completion_bind bind].
    destruct properties as [entries|]; cbn [mbind completion_bind bind default]; [|done].
    by rewrite forEach_set_prototype_2.
  - rewrite length_app, <- !app_assoc. cbn [length app].
    rewrite set_prototype_2 by done. cbn [mbind completion_bind bind].
    replace (length h + 3 + 1) with (length h + 4) by lia.
    destruct properties as [entries|]; cbn [mbind completion_bind bind default]; [|done].
    by rewrite forEach_set_prototype_2.
Qed.

Lemma with_entries_notin entries (m : gmap string value) k :
  k ∉ entries.*1 → with_entries entries m !! k = m !! k.
Proof.
  revert m. induction entries as [|[key v] rest IH]; intros m Hk; [done|].
  rewrite fmap_cons in Hk. apply not_elem_of_cons in Hk as [Hne Hk]. cbn in Hne.
  cbn [with_entries foldl fst snd]. fold (with_entries rest (<[key := v]> m)).
  rewrite IH by done. by rewrite lookup_insert_ne.
Qed.


Lemma older_apps h ext :
  older h →
  (∀ i o l', ext !! i = Some o → proto o = VRef l' → l' < length h + i) →
  older (h ++ ext).
Proof.
  intros Holder Hext l o l' Hl Hproto.
  apply lookup_app_Some in Hl as [Hl|[Hlen Hl]]; [by eapply Holder|].
  specialize (Hext _ _ _ Hl Hproto). lia.
Qed.

(** What an heir that does not own [k] reads. *)
Lemma get_heir h ext l o k bp :
  older h → (∀ b, bp = VRef b → b < length h) → older (h ++ ext) →
  (h ++ ext) !! l = Some o → own o !! k = None → proto o = bp →
  get foreign (h ++ ext) (VRef l) k = Normal (inherited foreign h bp k).
Proof.
  intros Holder Hbp Holder' Hl Hk Hproto.
  assert ((∃ b, bp = VRef b) ∨ inherited foreign h bp k = beyond foreign bp k ∧ ∀ b, bp ≠ VRef b)
    as [[b ->]|[Hbeyond Hnot]] by (destruct bp; eauto).
  - rewrite (get_inherit _ _ _ b _ Holder' Hl Hk Hproto).
    by rewrite get_app by auto.
  - rewrite Hbeyond, <- Hproto. apply get_beyond; [done..|]. by rewrite Hproto.
Qed.

(** How [Class] can end. *)
Lemma Class_cases base properties h cls h' :
  Class foreign base properties h = Normal (cls, h') →
  (truthy base = false ∧
   (cls, h') =
     (VRef (length h),
      h ++ [function_object ClassBody (length h + 1);
            {| own := with_entries (default [] properties)
                        (<["initialize" := VRef (length h + 2)]>
                           {["constructor" := VRef (length h)]});
               proto := VNative "Object.prototype"; callable := None |};
            function_object EmptyBody (length h + 3);
            prototype_object (length h + 2)])) ∨
  (truthy base = true ∧ ∃ bp initialize,
     get foreign (h ++ [function_object ClassBody (length h + 1); prototype_object (length h)])
         base "prototype" = Normal bp ∧
     object_or_null bp = true ∧
     get foreign (h ++ [function_object ClassBody (length h + 2); prototype_object (length h);
                {| own := {["constructor" := VRef (length h)]}; proto := bp;
                   callable := None |}])
         (VRef (length h + 2)) "initialize" = Normal initialize ∧
     (cls, h') =
       (VRef (length h),
        if truthy initialize then
          h ++ [function_object ClassBody (length h + 2); prototype_object (length h);
                {| own := with_entries (default [] properties)
                            {["constructor" := VRef (length h)]};
                   proto := bp; callable := None |}]
        else
          h ++ [function_object ClassBody (length h + 2); prototype_object (length h);
                {| own := with_entries (default [] properties)
                            (<["initialize" := VRef (length h + 3)]>
                               {["constructor" := VRef (length h)]});
                   proto := bp; callable := None |};
                function_object EmptyBody (length h + 4);
                prototype_object (length h + 3)])).
Proof.
  intros Hrun. destruct (truthy base) eqn:Hbase.
  - right. split; [done|].
    destruct (get foreign (h ++ [function_object ClassBody (length h + 1);
                         prototype_object (length h)]) base "prototype")
      as [bp|e] eqn:Hget; [|by destruct base].
    destruct (object_or_null bp) eqn:Hbp.
    + destruct (Class_with_base base properties h bp Hbase Hget Hbp)
        as (initialize & Hinit & Hclass).
      exists bp, initialize. rewrite Hclass in Hrun. by injection Hrun as <- <-.
    + exfalso. unfold Class, function in Hrun. rewrite Hbase in Hrun.
      cbn [mbind completion_bind bind] in Hrun. rewrite Hget in Hrun.
      by destruct bp.
  - left. split; [done|]. rewrite Class_no_base in Hrun by done.
    by injection Hrun as <- <-.
Qed.

(** The class and its prototype object, in a heap that [Class] returned:
    the prototype object is new, its own properties are the constructor,
    the no-op [initialize] where one was needed, and the entries on top. *)
Lemma Class_prototype base properties h cls h' :
  Class foreign base properties h = Normal (cls, h') →
  cls = VRef (length h) ∧
  ∃ ext P oP initial,
    h' = h ++ ext ∧ length h < P ∧ h' !! P = Some oP ∧
    get foreign h' cls "prototype" = Normal (VRef P) ∧
    own oP = with_entries (default [] properties) initial ∧
    initial !! "constructor" = Some cls ∧
    (∀ k, k ≠ "constructor" → k ≠ "initialize" → initial !! k = None) ∧
    (∀ i o l', ext !! i = Some o → proto o = VRef l' → proto o = proto oP) ∧
    ((truthy base = false ∧ proto oP = VNative "Object.prototype" ∧
      ∃ f fp, initial !! "initialize" = Some (VRef f) ∧ length h < f ∧
              h' !! f = Some (function_object EmptyBody fp)) ∨
     (truthy base = true ∧
      get foreign (h ++ [function_object ClassBody (length h + 1); prototype_object (length h)])
          base "prototype" = Normal (proto oP) ∧
      object_or_null (proto oP) = true ∧
      ∃ initialize,
        get foreign (h ++ [function_object ClassBody (length h + 2); prototype_object (length h);
                   {| own := {["constructor" := VRef (length h)]}; proto := proto oP;
                      callable := None |}])
            (VRef (length h + 2)) "initialize" = Normal initialize ∧
        if truthy initialize then initial !! "initialize" = None
        else ∃ f fp, initial !! "initialize" = Some (VRef f) ∧ length h < f ∧
                     h' !! f = Some (function_object EmptyBody fp))).
Proof.
  intros Hrun.
  apply Class_cases in Hrun
    as [[Hbase [= -> ->]]|[Hbase (bp & initialize & Hget & Hbp & Hinit & Hrun)]].
  - split; [done|]. eexists _, (length h + 1), _, _. split; [done|].
    split; [lia|]. split; [apply lookup_app_1|].
    split; [by erewrite get_own by (done || apply lookup_app_0)|].
    split; [done|]. split; [done|]. split.
    { intros k Hk1 Hk2. by rewrite lookup_insert_ne, lookup_singleton_ne. }
    split.
    { intros i o l' Hi Hproto. do 4 (destruct i as [|i]; [by injection Hi as <-|]). done. }
    left. repeat split; [done|]. exists (length h + 2), (length h + 3).
    split; [done|]. split; [lia|apply lookup_app_2].
  - destruct (truthy initialize) eqn:Htruthy; injection Hrun as -> ->.
    + split; [done|]. eexists _, (length h + 2), _, _. split; [done|].
      split; [lia|]. split; [apply lookup_app_2|].
      split; [by erewrite get_own by (done || apply lookup_app_0)|].
      split; [done|]. split; [done|]. split.
      { intros k Hk1 Hk2. by rewrite lookup_singleton_ne. }
      split.
      { intros i o l' Hi Hproto.
        do 3 (destruct i as [|i]; [by injection Hi as <-|]). done. }
      right. cbn [proto]. repeat split; [done..|].
      exists initialize. split; [done|]. by rewrite Htruthy.
    + split; [done|]. eexists _, (length h + 2), _, _. split; [done|].
      split; [lia|]. split; [apply lookup_app_2|].
      split; [by erewrite get_own by (done || apply lookup_app_0)|].
      split; [done|]. split; [done|]. split.
      { intros k Hk1 Hk2. by rewrite lookup_insert_ne, lookup_singleton_ne. }
      split.
      { intros i o l' Hi Hproto.
        do 5 (destruct i as [|i]; [by injection Hi as <-|]). done. }
      right. cbn [proto]. repeat split; [done..|].
      exists initialize. split; [done|]. rewrite Htruthy.
      exists (length h + 3), (length h + 4). split; [done|]. split; [lia|].
      rewrite lookup_app_r by lia. by replace (length h + 3 - length h) with 3 by lia.
Qed.

(** [Class] only makes objects: the class is the first of them, and
    every object that was there, the base class and its prototype
    included, is as it was. *)
Theorem Class_leaves_objects base properties h cls h' :
  Class foreign base properties h = Normal (cls, h') →
  cls = VRef (length h) ∧ ∃ ext, h' = h ++ ext.
Proof.
  intros Hrun. apply Class_prototype in Hrun as (-> & ext & P & oP & initial & -> & _).
  split; [done|]. by exists ext.
Qed.


(** Unless the properties say otherwise, the [constructor] of the
    prototype of the class is the class. *)
Theorem Class_constructor base properties h cls h' :
  Class foreign base properties h = Normal (cls, h') →
  "constructor" ∉ (default [] properties).*1 →
  ∃ P, get foreign h' cls "prototype" = Normal (VRef P) ∧
       get foreign h' (VRef P) "constructor" = Normal cls.
Proof.
  intros Hrun Hk.
  apply Class_prototype in Hrun
    as (-> & ext & P & oP & initial & -> & HP & HoP & Hget & Hown & Hctor & _).
  exists P. split; [done|]. apply (get_own _ P oP); [done|].
  rewrite Hown. by rewrite with_entries_notin.
Qed.

(** A truthy base class has to have an object (or [null]) for its
    [prototype]: a number, a string, [true], or an object without a
    [prototype] for a base class make [Object.create] throw. *)
Theorem Class_needs_a_prototype base properties h :
  older h → truthy base = true →
  (∀ bl, base = VRef bl → bl < length h) →
  (∀ bp, get foreign h base "prototype" = Normal bp → object_or_null bp = false) →
  Class foreign base properties h
    = Throw (TypeError "Object prototype may only be an Object or null").
Proof.
  intros Holder Hbase Hkind Hbp. unfold Class, function. rewrite Hbase.
  cbn [mbind completion_bind bind].
  assert (∃ bp, get foreign (h ++ [function_object ClassBody (length h + 1);
                           prototype_object (length h)]) base "prototype" = Normal bp
                ∧ object_or_null bp = false) as (bp & -> & Hnot).
  { rewrite get_app_old by done.
    destruct (get foreign h base "prototype") as [bp|e] eqn:Hget; [|by destruct base].
    exists bp. split; [done|]. by apply Hbp. }
  by destruct bp.
Qed.

(** The same, for a base class of the heap: the prototype object is an
    heir of the prototype of the base class, and it owns an [initialize]
    exactly when it inherits none that is truthy. *)
Lemma Class_heir base properties h bp cls h' :
  older h → based_on foreign h base bp →
  Class foreign base properties h = Normal (cls, h') →
  ∃ ext P oP initial,
    h' = h ++ ext ∧ older h' ∧ h' !! P = Some oP ∧
    get foreign h' cls "prototype" = Normal (VRef P) ∧
    own oP = with_entries (default [] properties) initial ∧
    proto oP = bp ∧ (∀ b, bp = VRef b → b < length h) ∧
    (∀ k, k ≠ "constructor" → k ≠ "initialize" → initial !! k = None) ∧
    ((initial !! "initialize" = None ∧ truthy (inherited foreign h bp "initialize") = true) ∨
     (∃ f fp, initial !! "initialize" = Some (VRef f) ∧ length h < f ∧
              h' !! f = Some (function_object EmptyBody fp)) ∧
     truthy (inherited foreign h bp "initialize") = false).
Proof.
  intros Holder Hbased Hrun.
  apply Class_prototype in Hrun
    as (-> & ext & P & oP & initial & -> & HP & HoP & Hget & Hown & Hctor & Hrest & Hext & Hfrom).
  assert (proto oP = bp ∧ ∀ b, bp = VRef b → b < length h) as [Hproto Hbp].
  { destruct Hbased as [[Hbase ->]|(Hbase & Hbl & Hbp & Hobj & Hin)].
    - destruct Hfrom as [(_ & Hproto & _)|[Hbase' _]]; [done|congruence].
    - destruct Hfrom as [[Hbase' _]|(_ & Hget' & _)]; [congruence|].
      rewrite get_app_old in Hget' by done. split; [congruence|done]. }
  assert (older (h ++ ext)) as Holder'.
  { apply older_apps; [done|]. intros i o l' Hi Hl'.
    rewrite (Hext _ _ _ Hi Hl'), Hproto in Hl'. specialize (Hbp _ Hl'). lia. }
  exists ext, P, oP, initial. repeat (split; [done|]).
  destruct Hfrom as [(Hbase & Hnull & Hinit)|(Hbase & Hget' & Hobj & initialize & Hinit & Hif)].
  - right. split; [done|]. rewrite <- Hproto, Hnull. cbn [inherited].
    by rewrite beyond_Object_prototype, plain_initialize.
  - erewrite (get_heir h _ (length h + 2) _ "initialize" bp) in Hinit;
      [|done|done| |apply lookup_app_2|done|by rewrite Hproto].
    + injection Hinit as <-.
      destruct (truthy (inherited foreign h bp "initialize")); [by left|by right].
    + apply older_apps; [done|]. intros i o l' Hi Hl'.
      do 3 (destruct i as [|i]; [injection Hi as <-; try done|]); [|done].
      cbn in Hl'. rewrite Hproto in Hl'. specialize (Hbp _ Hl'). lia.
Qed.



(** With no base class, or with a base class of the heap whose
    [prototype] is an object of the heap or [null], [Class] returns a
    class; and prototypes stay older than their heirs, so that the class
    can be a base class in turn. *)
Theorem Class_returns base properties h bp :
  older h → based_on foreign h base bp →
  ∃ cls h', Class foreign base properties h = Normal (cls, h') ∧ older h'.
Proof.
  intros Holder Hbased.
  assert (∃ cls h', Class foreign base properties h = Normal (cls, h')) as (cls & h' & Hrun).
  { destruct Hbased as [[Hbase _]|(Hbase & Hbl & Hget & Hobj & _)].
    - rewrite Class_no_base by done. by eexists _, _.
    - destruct (Class_with_base base properties h bp) as (initialize & _ & ->);
        [done|by rewrite get_app_old|done|]. by eexists _, _. }
  exists cls, h'. split; [done|].
  by destruct (Class_heir _ _ _ _ _ _ Holder Hbased Hrun)
    as (ext & P & oP & initial & -> & Holder' & _).
Qed.
End ClassFacts.

Section ClassWitnesses.
Import Js Classes.
Local Open Scope nat_scope.


Lemma Class_derived_run :
  Class outside (VRef 0) (Some derived_entries) heap_base = Normal (VRef 4, heap_derived).
Proof. vm_compute; reflexivity. Qed.

Lemma Class_foreign_run :
  Class outside (VFun 9) None [] = Normal (VRef 0, heap_foreign).
Proof. vm_compute; reflexivity. Qed.

Lemma older_nil : older [].
Proof. by intros l o l' Hl. Qed.

Lemma older_heap_base : older heap_base.
Proof.
  intros l o l' Hl Hproto.
  do 4 (destruct l as [|l]; [vm_compute in Hl; injection Hl as <-; discriminate Hproto|]).
  done.
Qed.


Lemma based_on_heap_base : based_on outside heap_base (VRef 0) (VRef 1).
Proof.
  right. split; [done|]. split; [intros bl [= <-]; vm_compute; lia|].
  split; [vm_compute; reflexivity|]. split; [done|].
  intros b [= <-]. vm_compute; lia.
Qed.

Lemma based_on_foreign : based_on outside [] (VFun 9) (VHost 9).
Proof. right. split; [done|]. split; [done|]. split; [vm_compute; reflexivity|]. done. Qed.

Lemma Class_leaves_objects_witness :
  VRef 4 = VRef (length heap_base) ∧ ∃ ext, heap_derived = heap_base ++ ext.
Proof.
  exact (Class_leaves_objects outside (VRef 0) (Some derived_entries) heap_base (VRef 4)
           heap_derived Class_derived_run).
Defined.


Lemma Class_constructor_witness :
  ∃ P, get outside heap_derived (VRef 4) "prototype" = Normal (VRef P) ∧
       get outside heap_derived (VRef P) "constructor" = Normal (VRef 4).
Proof.
  apply (Class_constructor outside (VRef 0) (Some derived_entries) heap_base (VRef 4)
           heap_derived Class_derived_run).
  compute_done.
Defined.

(** The prototype of the base class (location 1) is no class; nor are a
    number, and a function of the caller that has no [prototype]. *)
Lemma Class_needs_a_prototype_witness :
  Class outside (VRef 1) None heap_base
    = Throw (TypeError "Object prototype may only be an Object or null") ∧
  Class outside (VNum 5) None heap_base
    = Throw (TypeError "Object prototype may only be an Object or null") ∧
  Class outside (VFun 10) None heap_base
    = Throw (TypeError "Object prototype may only be an Object or null").
Proof.
  split; [|split].
  - apply (Class_needs_a_prototype outside (VRef 1) None heap_base older_heap_base eq_refl).
    + intros bl [= <-]. vm_compute; lia.
    + intros bp Hget. vm_compute in Hget. by injection Hget as <-.
  - apply (Class_needs_a_prototype outside (VNum 5) None heap_base older_heap_base eq_refl).
    + intros bl Hbl. discriminate Hbl.
    + intros bp Hget. by injection Hget as <-.
  - apply (Class_needs_a_prototype outside (VFun 10) None heap_base older_heap_base eq_refl).
    + intros bl Hbl. discriminate Hbl.
    + intros bp Hget. vm_compute in Hget. by injection Hget as <-.
Defined.



(** A class of the heap and a class of the caller as base classes. *)
Lemma Class_returns_witness :
  (∃ cls h', Class outside (VRef 0) (Some derived_entries) heap_base = Normal (cls, h')
             ∧ older h') ∧
  (∃ cls h', Class outside (VFun 9) None [] = Normal (cls, h') ∧ older h').
Proof.
  split.
  - exact (Class_returns outside (VRef 0) (Some derived_entries) heap_base (VRef 1)
             older_heap_base based_on_heap_base).
  - exact (Class_returns outside (VFun 9) None [] (VHost 9) older_nil based_on_foreign).
Defined.

(** The class made from the class of the caller inherits the
    [initialize] of that class, and gets none of its own. *)
Example Class_foreign_initialize :
  get outside heap_foreign (VRef 0) "prototype" = Normal (VRef 2) ∧
  get outside heap_foreign (VRef 2) "initialize" = Normal (VFun 10) ∧
  length heap_foreign = 3.
Proof. repeat split; vm_compute; reflexivity. Qed.
End ClassWitnesses.

(** * More on [LoadProject] *)

Section Wiring.
Import Js Loader.
Local Open Scope nat_scope.
Variable b3 : Namespace.
Implicit Types (h : list cell) (l : loc) (p : gmap string value).
Implicit Types (tempNodes : gmap string value) (spec : NodeSpec) (id : string).
Implicit Types (ts : list TreeSpec) (tree : TreeSpec).
Implicit Types (names : option (gmap string value)).

(** The loop of lines 193-196 appends to the array. *)
Lemma forEach_push tempNodes node n a p cids h elems :
  node = VRef n → h !! n = Some (CObj p) → p !! "children" = Some (VRef a) →
  h !! a = Some (CArr elems) →
  forEach (λ cid h, children ← get_prop h node "children";
                    push children (temp tempNodes cid) h) cids h
    = Normal (<[a := CArr (elems ++ (temp tempNodes <$> cids))]> h).
Proof.
  intros -> Hn Hp. revert h elems Hn.
  induction cids as [|cid rest IH]; intros h elems Hn Ha.
  - cbn. by rewrite app_nil_r, list_insert_id.
  - cbn [forEach]. rewrite (get_prop_obj _ _ _ _ Hn), Hp.
    cbn [mbind completion_bind bind default from_option Datatypes.id push].
    rewrite Ha. cbn [bind].
    assert (n ≠ a) as Hne by congruence.
    rewrite (IH _ (elems ++ [temp tempNodes cid])).
    + rewrite list_insert_insert_eq, <- app_assoc. done.
    + by rewrite list_lookup_insert_ne.
    + apply list_lookup_insert_eq. by eapply lookup_lt_Some.
Qed.

(** The round of the second loop for a composite. *)
Lemma connect_children tempNodes id spec h n a p elems cids :
  tempNodes !! id = Some (VRef n) → h !! n = Some (CObj p) →
  p !! "category" = Some (COMPOSITE b3) → p !! "children" = Some (VRef a) →
  h !! a = Some (CArr elems) → spec_children spec = Some cids →
  connect b3 tempNodes (id, spec) h
    = Normal (<[a := CArr (elems ++ (temp tempNodes <$> cids))]> h).
Proof.
  intros Hid Hn Hcat Hp Ha Hcids.
  assert (temp tempNodes id = VRef n) as Htemp by by apply plain_get_own.
  unfold connect. cbv zeta. rewrite Htemp, (get_prop_obj _ _ _ _ Hn), Hcat.
  cbn [mbind completion_bind bind default from_option Datatypes.id].
  unfold strict_eq. rewrite bool_decide_true by done. rewrite Hcids.
  rewrite bool_decide_true by by eexists. cbn [andb default from_option Datatypes.id].
  by eapply forEach_push.
Qed.

(** A composite gets its children in the order of the specification,
    behind what its array held.  A child id that names no node of the
    tree is no error: it gives what the empty object [tempNodes] has under
    that name, which is [undefined], or, for an id such as [toString], the
    member of [Object.prototype] that every object inherits. *)
Theorem connect_composite tempNodes id spec h n a p elems cids :
  tempNodes !! id = Some (VRef n) → h !! n = Some (CObj p) →
  p !! "category" = Some (COMPOSITE b3) → p !! "children" = Some (VRef a) →
  h !! a = Some (CArr elems) → spec_children spec = Some cids →
  connect b3 tempNodes (id, spec) h
    = Normal (<[a := CArr (elems ++ (temp tempNodes <$> cids))]> h) ∧
  ∀ j cid, cids !! j = Some cid →
    (temp tempNodes <$> cids) !! j =
      Some (match tempNodes !! cid with
            | Some node => node
            | None => default VUndef (Object_prototype !! cid)
            end).
Proof.
  intros Hid Hn Hcat Hp Ha Hcids. split; [by eapply connect_children|].
  intros j cid Hj. by rewrite list_lookup_fmap, Hj.
Qed.


Lemma created_length ts (trees : gmap string loc) h :
  length (created b3 ts trees h).2 = length h + length ts.
Proof. destruct (created_heap b3 ts trees h) as (ext & -> & <-). apply length_app. Qed.



(** After a load, the [root] of the tree object of a tree is the slot
    that the first loop of that tree left under its root id. *)
Lemma LoadProject_root ts names h mapping h' out B :
  LoadProject b3 (Project ts) names h = Normal (Some mapping, h', out) →
  NoDup (tree_id <$> ts) → B ∈ ts →
  ∃ b h1 tempNodes h2,
    mapping !! tree_id B = Some b ∧
    forEach (instantiate b3 mapping (default ∅ names)) (tree_nodes B) (∅, h1)
      = Normal (tempNodes, h2) ∧
    get_prop h' (VRef b) "root" = Normal (temp tempNodes (tree_root B)).
Proof.
  intros Hload Hids HB.
  rewrite LoadProject_project in Hload. inv_bind Hload. injection Hload as <- <- <-.
  set (trees := (created b3 ts ∅ h).1) in *.
  destruct (list_elem_of_split _ _ HB) as (before & after & ->).
  assert ((before ++ B :: after) !! length before = Some B) as HiB
    by by apply list_lookup_middle.
  pose proof (created_lookup_NoDup b3 _ ∅ h _ B Hids HiB) as Hb.
  pose proof (created_object b3 _ ∅ h _ B HiB) as Hobj.
  rewrite fmap_app, fmap_cons in Hids.
  apply NoDup_app in Hids as (_ & Hbefore & Hafter).
  apply NoDup_cons in Hafter as [Hafter _].
  assert (∀ T, tree_id T ≠ tree_id B → trees !! tree_id T ≠ Some (length h + length before))
    as Hother.
  { intros T Hne HT. apply Hne. by eapply created_injective. }
  rewrite forEach_app in Hx. inv_bind Hx. cbn [forEach] in Hx. inv_bind Hx.
  assert (keeps "root" (length h + length before) (created b3 (before ++ B :: after) ∅ h).2 x0)
    as Hkeep0.
  { revert Hx0. apply forEach_preserves; [apply keeps_refl|apply keeps_trans|].
    intros T h1 h2 HT Hstep. eapply load_tree_keeps; [done|]. apply Hother.
    intros Heq. apply (Hbefore (tree_id B)); [|left].
    rewrite <- Heq. apply list_elem_of_fmap. by exists T. }
  destruct (Hkeep0 _ Hobj) as (p0 & Hp0 & _).
  destruct (load_tree_root b3 trees _ B x0 x1 _ p0 Hx1 Hb Hp0)
    as (tempNodes & h1 & p1 & Hinst & Hp1 & Hroot1).
  assert (keeps "root" (length h + length before) x1 x) as Hkeep1.
  { revert Hx. apply forEach_preserves; [apply keeps_refl|apply keeps_trans|].
    intros T h2 h3 HT Hstep. eapply load_tree_keeps; [done|]. apply Hother.
    intros Heq. apply Hafter. rewrite <- Heq. apply list_elem_of_fmap. by exists T. }
  destruct (Hkeep1 _ Hp1) as (p2 & Hp2 & Hroot2).
  exists (length h + length before), x0, tempNodes, h1.
  split; [done|]. split; [done|].
  rewrite (get_prop_obj _ _ _ _ Hp2), Hroot2, Hroot1. done.
Qed.

(** A root id that names no node of the tree is no error: the project
    (with ordinary ids) loads, and the [root] of that tree is what the
    empty object has under that id: [undefined], unless the id is the name of a member of
    [Object.prototype], which is then the root. *)
Theorem missing_root_is_no_error ts names h mapping h' out B :
  LoadProject b3 (Project ts) names h = Normal (Some mapping, h', out) →
  ordinary ts → NoDup (tree_id <$> ts) → B ∈ ts →
  tree_root B ∉ (tree_nodes B).*1 →
  ∃ b, mapping !! tree_id B = Some b ∧
       get_prop h' (VRef b) "root"
         = Normal (default VUndef (Object_prototype !! tree_root B)) ∧
       (Object_prototype !! tree_root B = None →
          get_prop h' (VRef b) "root" = Normal VUndef).
Proof.
  intros Hload _ Hids HB Hroot.
  destruct (LoadProject_root _ _ _ _ _ _ _ Hload Hids HB)
    as (b & h1 & tempNodes & h2 & Hb & Hinst & Hget).
  assert (temp tempNodes (tree_root B) = default VUndef (Object_prototype !! tree_root B))
    as Htemp.
  { apply plain_get_inherited.
    by rewrite (forEach_instantiate_other _ _ _ _ _ _ _ _ _ Hinst Hroot). }
  exists b. split; [done|]. rewrite Hget, Htemp. split; [done|].
  by intros ->.
Qed.
End Wiring.

Section Instances.
Import Js Loader.
Local Open Scope nat_scope.
Variable b3 : Namespace.
Variable trees : gmap string loc.
Variable names : gmap string value.
Implicit Types (h : list cell) (l : loc) (p : gmap string value).
Implicit Types (tempNodes : gmap string value) (spec : NodeSpec) (id : string).
Implicit Types (nodes : list (string * NodeSpec)).

Lemma set_or_length l k v h h' : set_or l k v h = Normal h' → length h' = length h.
Proof.
  unfold set_or. intros Hrun. inv_bind Hrun. injection Hrun as <-.
  apply set_prop_length.
Qed.

Lemma new_fresh cls arg h node h' :
  new cls arg h = Normal (node, h') → length h ≤ node < length h'.
Proof.
  unfold new, alloc. destruct cls as [construct|v]; [|done].
  destruct (construct arg) as [inst|e]; [|done]. cbn.
  destruct (kids inst) as [elems|]; intros [= <- <-]; rewrite !length_app; cbn; lia.
Qed.

(** A round of the first loop for a name that is no tree: the slot is a
    new object. *)
Lemma instantiate_fresh id spec tempNodes h tempNodes' h' :
  instantiate b3 trees names (id, spec) (tempNodes, h) = Normal (tempNodes', h') →
  truthy (tree_at trees (spec_name spec)) = false →
  ∃ n, tempNodes' = <[id := VRef n]> tempNodes ∧ length h ≤ n < length h'.
Proof.
  unfold instantiate. intros Hrun Htree. rewrite Htree in Hrun.
  inv_bind Hrun. destruct (new x (spec_properties spec) h) as [[node h1]|e] eqn:Hnew;
    [|done].
  apply new_fresh in Hnew. cbn [mbind completion_bind bind] in Hrun.
  inv_bind Hrun. apply set_or_length in Hx0.
  inv_bind Hrun. apply set_or_length in Hx1.
  inv_bind Hrun. apply set_or_length in Hx2.
  inv_bind Hrun. apply set_or_length in Hx3.
  injection Hrun as <- <-. exists node. split; [done|]. lia.
Qed.

Lemma forEach_instantiate_length nodes tempNodes h tempNodes' h' :
  forEach (instantiate b3 trees names) nodes (tempNodes, h) = Normal (tempNodes', h') →
  length h ≤ length h'.
Proof.
  intros Hrun. apply forEach_instantiate_extends in Hrun as [ext ->].
  rewrite length_app. lia.
Qed.

Lemma forEach_instantiate_fresh nodes tempNodes h tempNodes' h' j id spec :
  forEach (instantiate b3 trees names) nodes (tempNodes, h) = Normal (tempNodes', h') →
  NoDup nodes.*1 → nodes !! j = Some (id, spec) →
  truthy (tree_at trees (spec_name spec)) = false →
  ∃ n, tempNodes' !! id = Some (VRef n) ∧ length h ≤ n < length h'.
Proof.
  revert tempNodes h j. induction nodes as [|[id1 spec1] rest IH];
    intros tempNodes h j Hrun Hnd Hj Htree; [done|].
  cbn [forEach] in Hrun. inv_bind Hrun. destruct x as [tn1 h1].
  rewrite fmap_cons in Hnd. apply NoDup_cons in Hnd as [Hfirst Hnd]. cbn in Hfirst.
  pose proof (forEach_instantiate_length _ _ _ _ _ Hrun) as Hlen.
  destruct j as [|j].
  - injection Hj as -> ->.
    apply instantiate_fresh in Hx as (n & -> & Hn); [|done].
    exists n. rewrite (forEach_instantiate_other _ _ _ _ _ _ _ _ _ Hrun Hfirst).
    rewrite lookup_insert_eq. split; [done|lia].
  - cbn in Hj. destruct (IH _ _ _ Hrun Hnd Hj Htree) as (n & Hn & Hrange).
    exists n. split; [done|].
    apply instantiate_extends in Hx as [_ [ext ->]]. rewrite length_app in Hrange. lia.
Qed.

Lemma forEach_instantiate_ordered nodes tempNodes h tempNodes' h' i j id1 spec1 id2 spec2 :
  forEach (instantiate b3 trees names) nodes (tempNodes, h) = Normal (tempNodes', h') →
  NoDup nodes.*1 → i < j →
  nodes !! i = Some (id1, spec1) → nodes !! j = Some (id2, spec2) →
  truthy (tree_at trees (spec_name spec1)) = false →
  truthy (tree_at trees (spec_name spec2)) = false →
  ∃ n1 n2, tempNodes' !! id1 = Some (VRef n1) ∧ tempNodes' !! id2 = Some (VRef n2) ∧
           length h ≤ n1 ∧ n1 < n2.
Proof.
  revert tempNodes h i j. induction nodes as [|[id0 spec0] rest IH];
    intros tempNodes h i j Hrun Hnd Hij Hi Hj Htree1 Htree2; [done|].
  cbn [forEach] in Hrun. inv_bind Hrun. destruct x as [tn1 h1].
  rewrite fmap_cons in Hnd. apply NoDup_cons in Hnd as [Hfirst Hnd]. cbn in Hfirst.
  destruct j as [|j]; [lia|]. cbn in Hj. destruct i as [|i].
  - injection Hi as -> ->.
    apply instantiate_fresh in Hx as (n1 & -> & Hn1); [|done].
    destruct (forEach_instantiate_fresh _ _ _ _ _ _ _ _ Hrun Hnd Hj Htree2)
      as (n2 & Hn2 & Hrange).
    exists n1, n2. rewrite (forEach_instantiate_other _ _ _ _ _ _ _ _ _ Hrun Hfirst).
    rewrite lookup_insert_eq. repeat split; [done|lia..].
  - cbn in Hi.
    destruct (IH _ _ i j Hrun Hnd ltac:(lia) Hi Hj Htree1 Htree2)
      as (n1 & n2 & Hn1 & Hn2 & Hge & Hlt).
    exists n1, n2. repeat split; [done..| |done].
    apply instantiate_extends in Hx as [_ [ext ->]]. rewrite length_app in Hge. lia.
Qed.

(** Among nodes with ordinary ids, every node specification whose name
    is not found in [trees] (it is neither the id of a tree nor a name
    that every object inherits) gets an object of its own: the slots of two of them hold different new
    objects.  What is found in [trees] is shared: a tree, or a member of
    [Object.prototype], and two nodes named after the same one have it
    both. *)
Theorem nodes_are_fresh nodes h tempNodes h' i j id1 spec1 id2 spec2 :
  forEach (instantiate b3 trees names) nodes (∅, h) = Normal (tempNodes, h') →
  ordinary_ids nodes.*1 → NoDup nodes.*1 → i ≠ j →
  nodes !! i = Some (id1, spec1) → nodes !! j = Some (id2, spec2) →
  (trees !! spec_name spec1 = None ∧ Object_prototype !! spec_name spec1 = None →
   trees !! spec_name spec2 = None ∧ Object_prototype !! spec_name spec2 = None →
   ∃ n1 n2, tempNodes !! id1 = Some (VRef n1) ∧ tempNodes !! id2 = Some (VRef n2) ∧
            n1 ≠ n2 ∧ length h ≤ n1 ∧ length h ≤ n2) ∧
  (spec_name spec1 = spec_name spec2 →
   is_Some (trees !! spec_name spec1) ∨ is_Some (Object_prototype !! spec_name spec1) →
   tempNodes !! id1 = Some (tree_at trees (spec_name spec1)) ∧
   tempNodes !! id2 = Some (tree_at trees (spec_name spec1)) ∧
   ∀ n, tree_at trees (spec_name spec1) = VRef n → trees !! spec_name spec1 = Some n).
Proof.
  intros Hrun _ Hnd Hij Hi Hj. split.
  - intros Htree1 Htree2. apply tree_at_falsy in Htree1, Htree2.
    destruct (decide (i < j)) as [Hlt|Hge].
    + destruct (forEach_instantiate_ordered _ _ _ _ _ _ _ _ _ _ _ Hrun Hnd Hlt Hi Hj
                  Htree1 Htree2) as (n1 & n2 & Hn1 & Hn2 & Hfresh & Horder).
      exists n1, n2. repeat split; [done..|lia|lia|lia].
    + assert (j < i) as Hlt by lia.
      destruct (forEach_instantiate_ordered _ _ _ _ _ _ _ _ _ _ _ Hrun Hnd Hlt
                  Hj Hi Htree2 Htree1)
        as (n2 & n1 & Hn2 & Hn1 & Hfresh & Horder).
      exists n1, n2. repeat split; [done..|lia|lia|lia].
  - intros Hsame Hfound.
    assert (truthy (tree_at trees (spec_name spec1)) = true) as Htruthy.
    { destruct (truthy (tree_at trees (spec_name spec1))) eqn:Hfalsy; [done|].
      apply tree_at_falsy in Hfalsy as [Htree Hinh]. rewrite Htree, Hinh in Hfound.
      by destruct Hfound as [[? ?]|[? ?]]. }
    apply list_elem_of_lookup_2 in Hi, Hj.
    split; [by eapply forEach_instantiate_found|]. split.
    { rewrite Hsame in Htruthy |- *. by eapply forEach_instantiate_found. }
    intros n Hn. by apply tree_at_ref.
Qed.

(** A name that only the namespace knows, with or without an array of
    children. *)
Lemma instantiate_class id spec tempNodes h construct inst :
  trees !! spec_name spec = None → Object_prototype !! spec_name spec = None →
  names !! spec_name spec = None →
  members b3 !! spec_name spec = Some (Class construct) →
  construct (spec_properties spec) = Normal inst →
  instantiate b3 trees names (id, spec) (tempNodes, h) =
  match kids inst with
  | Some elems =>
      Normal (<[id := VRef (length h + 1)]> tempNodes,
              h ++ [CArr elems;
                    CObj (filled "properties" (spec_properties spec)
                            (filled "description" (spec_description spec)
                               (filled "title" (spec_title spec)
                                  (filled "id" (spec_id spec)
                                     (<["children" := VRef (length h)]> (fields inst))))))])
  | None =>
      Normal (<[id := VRef (length h)]> tempNodes,
              h ++ [CObj (filled "properties" (spec_properties spec)
                            (filled "description" (spec_description spec)
                               (filled "title" (spec_title spec)
                                  (filled "id" (spec_id spec) (fields inst)))))])
  end.
Proof.
  intros Htree Hinh Hcustom Hmember Hinst.
  destruct (kids inst) as [elems|] eqn:Hkids;
    [|by eapply instantiate_builtin].
  rewrite instantiate_resolve by done. unfold resolve, new, alloc.
  rewrite plain_has_absent by done. rewrite Hmember.
  cbn [mbind completion_bind bind]. rewrite Hinst. cbn [mbind completion_bind bind].
  rewrite Hkids. cbn [mbind completion_bind bind].
  replace (length (h ++ [CArr elems])) with (length h + 1) by (rewrite length_app; done).
  assert (∀ k v p, set_or (length h + 1) k v ((h ++ [CArr elems]) ++ [CObj p])
                   = Normal ((h ++ [CArr elems]) ++ [CObj (filled k v p)])) as Hset.
  { intros k v p. pose proof (set_or_fresh (h ++ [CArr elems]) k v p) as Hfresh.
    by rewrite length_app in Hfresh. }
  rewrite Hset. cbn [mbind completion_bind bind].
  rewrite Hset. cbn [mbind completion_bind bind].
  rewrite Hset. cbn [mbind completion_bind bind].
  rewrite Hset. cbn [mbind completion_bind bind].
  by rewrite <- app_assoc.
Qed.

(** A name that only the namespace knows: its class is instantiated with
    the properties of the specification, a composite with an array of its
    own for its children, and the new node has id, title, description and
    properties of the specification wherever they are truthy, and the
    values that the constructor left where they are not.  (A class named
    like a member of [Object.prototype] is not reached: [trees] inherits
    that member, and the slot is bound to it.) *)
Theorem builtin_node id spec tempNodes h construct inst :
  trees !! spec_name spec = None → names !! spec_name spec = None →
  members b3 !! spec_name spec = Some (Class construct) →
  construct (spec_properties spec) = Normal inst →
  instantiate b3 trees names (id, spec) (tempNodes, h) =
  match Object_prototype !! spec_name spec with
  | Some member => Normal (<[id := member]> tempNodes, h)
  | None =>
      match kids inst with
      | Some elems =>
          Normal (<[id := VRef (length h + 1)]> tempNodes,
                  h ++ [CArr elems;
                        CObj (filled "properties" (spec_properties spec)
                                (filled "description" (spec_description spec)
                                   (filled "title" (spec_title spec)
                                      (filled "id" (spec_id spec)
                                         (<["children" := VRef (length h)]>
                                            (fields inst))))))])
      | None =>
          Normal (<[id := VRef (length h)]> tempNodes,
                  h ++ [CObj (filled "properties" (spec_properties spec)
                                (filled "description" (spec_description spec)
                                   (filled "title" (spec_title spec)
                                      (filled "id" (spec_id spec) (fields inst)))))])
      end
  end.
Proof.
  intros Htree Hcustom Hmember Hinst.
  destruct (Object_prototype !! spec_name spec) as [member|] eqn:Hinh.
  - by apply instantiate_inherited.
  - by eapply instantiate_class.
Qed.
End Instances.

(** * Sub-trees *)

Section Wired.
Import Js Loader.
Local Open Scope nat_scope.
Variable b3 : Namespace.
Variable trees : gmap string loc.
Variable names : gmap string value.
Implicit Types (h : list cell) (l a n : loc) (p : gmap string value).
Implicit Types (tempNodes : gmap string value) (spec : NodeSpec) (id : string).
Implicit Types (nodes : list (string * NodeSpec)) (tree : TreeSpec).

Lemma connect_grows tempNodes entry h h' a :
  connect b3 tempNodes entry h = Normal h' → grows a h h'.
Proof.
  destruct entry as [id spec]. unfold connect. intros Hrun. inv_bind Hrun.
  destruct (strict_eq x (COMPOSITE b3) && bool_decide (is_Some (spec_children spec))).
  - revert Hrun. apply forEach_preserves.
    + apply grows_refl.
    + apply grows_trans.
    + intros cid h1 h2 _ Hstep. inv_bind Hstep. by eapply grows_push.
  - destruct (strict_eq x (DECORATOR b3) && _).
    + by eapply grows_assign.
    + injection Hrun as <-. apply grows_refl.
Qed.

Lemma connect_length tempNodes entry h h' :
  connect b3 tempNodes entry h = Normal h' → length h' = length h.
Proof.
  destruct entry as [id spec]. unfold connect. intros Hrun. inv_bind Hrun.
  destruct (strict_eq x (COMPOSITE b3) && bool_decide (is_Some (spec_children spec))).
  - revert Hrun. apply (forEach_preserves (λ h h' : list cell, length h' = length h)).
    + done.
    + intros h1 h2 h3 H12 H23. congruence.
    + intros cid h1 h2 _ Hstep. inv_bind Hstep. by eapply push_length.
  - destruct (strict_eq x (DECORATOR b3) && _).
    + by eapply assign_length.
    + by injection Hrun as <-.
Qed.

(** A round of the second loop for another node leaves [child] alone. *)
Lemma connect_keeps_child tempNodes id spec h h' l :
  temp tempNodes id ≠ VRef l → connect b3 tempNodes (id, spec) h = Normal h' →
  keeps "child" l h h'.
Proof.
  intros Hne. unfold connect. intros Hrun. inv_bind Hrun.
  destruct (strict_eq x (COMPOSITE b3) && bool_decide (is_Some (spec_children spec))).
  - revert Hrun. apply forEach_preserves.
    + apply keeps_refl.
    + apply keeps_trans.
    + intros cid h1 h2 _ Hstep. inv_bind Hstep. by eapply keeps_push.
  - destruct (strict_eq x (DECORATOR b3) && _).
    + by eapply keeps_assign_ne_loc.
    + injection Hrun as <-. apply keeps_refl.
Qed.

Lemma forEach_connect_grows tempNodes nodes h h' a :
  forEach (connect b3 tempNodes) nodes h = Normal h' → grows a h h'.
Proof.
  apply forEach_preserves.
  - apply grows_refl.
  - apply grows_trans.
  - intros entry h1 h2 _. apply connect_grows.
Qed.

Lemma forEach_connect_length tempNodes nodes h h' :
  forEach (connect b3 tempNodes) nodes h = Normal h' → length h' = length h.
Proof.
  apply (forEach_preserves (λ h h' : list cell, length h' = length h)).
  - done.
  - intros h1 h2 h3 H12 H23. congruence.
  - intros entry h1 h2 _. apply connect_length.
Qed.

Lemma forEach_connect_keeps_child tempNodes nodes h h' l :
  (∀ id spec, (id, spec) ∈ nodes → temp tempNodes id ≠ VRef l) →
  forEach (connect b3 tempNodes) nodes h = Normal h' → keeps "child" l h h'.
Proof.
  intros Hne. apply forEach_preserves.
  - apply keeps_refl.
  - apply keeps_trans.
  - intros [id spec] h1 h2 Hin. apply connect_keeps_child. by eapply Hne.
Qed.

(** The round of the second loop for a decorator. *)
Lemma connect_child tempNodes id spec h n p cid :
  tempNodes !! id = Some (VRef n) → h !! n = Some (CObj p) →
  p !! "category" = Some (DECORATOR b3) →
  DECORATOR b3 ≠ COMPOSITE b3 ∨ spec_children spec = None →
  spec_child spec = Some cid → cid ≠ EmptyString →
  connect b3 tempNodes (id, spec) h
    = Normal (<[n := CObj (<["child" := temp tempNodes cid]> p)]> h).
Proof.
  intros Hid Hn Hcat Hnot Hchild Hcid.
  assert (temp tempNodes id = VRef n) as Htemp by by apply plain_get_own.
  unfold connect. cbv zeta. rewrite Htemp, (get_prop_obj _ _ _ _ Hn), Hcat.
  cbn [mbind completion_bind bind default from_option Datatypes.id].
  assert (strict_eq (DECORATOR b3) (COMPOSITE b3)
          && bool_decide (is_Some (spec_children spec)) = false) as ->.
  { destruct Hnot as [Hne| ->].
    - unfold strict_eq. by rewrite bool_decide_false.
    - rewrite (bool_decide_false (is_Some None)) by (by intros [? ?]).
      apply andb_false_r. }
  unfold strict_eq. rewrite bool_decide_true by done. rewrite Hchild.
  cbn [andb from_option truthy default Datatypes.id].
  rewrite bool_decide_false by done. cbn [negb assign].
  by rewrite (set_prop_obj _ _ _ _ _ Hn).
Qed.

(** The slots that the first loop fills with objects of the heap hold
    trees of the mapping or objects that the loop made. *)
Lemma forEach_instantiate_slots nodes tempNodes h tempNodes' h' id n :
  forEach (instantiate b3 trees names) nodes (tempNodes, h) = Normal (tempNodes', h') →
  tempNodes' !! id = Some (VRef n) →
  tempNodes !! id = Some (VRef n) ∨ (∃ k, trees !! k = Some n) ∨ length h ≤ n.
Proof.
  revert tempNodes h. induction nodes as [|[id1 spec1] rest IH]; intros tempNodes h Hrun Hn.
  - injection Hrun as <- <-. by left.
  - cbn [forEach] in Hrun. inv_bind Hrun. destruct x as [tn1 h1].
    destruct (IH _ _ Hrun Hn) as [Hold|[Htree|Hfresh]]; [|by right; left|].
    + destruct (truthy (tree_at trees (spec_name spec1))) eqn:Hfound.
      * unfold instantiate in Hx. rewrite Hfound in Hx. injection Hx as <- <-.
        destruct (decide (id = id1)) as [->|Hne].
        -- rewrite lookup_insert_eq in Hold. injection Hold as Hold.
           right; left. exists (spec_name spec1). by apply tree_at_ref.
        -- rewrite lookup_insert_ne in Hold by done. by left.
      * apply instantiate_fresh in Hx as (m & -> & Hm); [|done].
        destruct (decide (id = id1)) as [->|Hne].
        -- rewrite lookup_insert_eq in Hold. injection Hold as ->. right; right. lia.
        -- rewrite lookup_insert_ne in Hold by done. by left.
    + right; right. apply instantiate_extends in Hx as [_ [ext ->]].
      rewrite length_app in Hfresh. lia.
Qed.

(** The slot of a new node is the slot of no other node of the tree. *)
Lemma forEach_instantiate_own nodes h tempNodes h' id spec n id' :
  forEach (instantiate b3 trees names) nodes (∅, h) = Normal (tempNodes, h') →
  NoDup nodes.*1 → (∀ k a, trees !! k = Some a → a < length h) →
  (id, spec) ∈ nodes → tempNodes !! id = Some (VRef n) → length h ≤ n →
  id' ≠ id → tempNodes !! id' ≠ Some (VRef n).
Proof.
  intros Hrun Hnd Htrees Hin Hn Hfresh Hne Hn'.
  assert (truthy (tree_at trees (spec_name spec)) = false) as Hnew.
  { destruct (truthy (tree_at trees (spec_name spec))) eqn:Hfound; [|done].
    rewrite (forEach_instantiate_found b3 trees names nodes ∅ h tempNodes h' id spec
               Hrun Hnd Hin Hfound) in Hn.
    injection Hn as Hn. apply tree_at_ref, Htrees in Hn. lia. }
  destruct (decide (id' ∈ nodes.*1)) as [Hin'|Hout].
  - apply list_elem_of_fmap in Hin' as ([id0 spec'] & -> & Hin'). cbn in *.
    apply list_elem_of_lookup in Hin as [i Hi]. apply list_elem_of_lookup in Hin' as [j Hj].
    assert (truthy (tree_at trees (spec_name spec')) = false) as Hnew'.
    { destruct (truthy (tree_at trees (spec_name spec'))) eqn:Hfound; [|done].
      rewrite (forEach_instantiate_found b3 trees names nodes ∅ h tempNodes h' id0 spec'
                 Hrun Hnd (list_elem_of_lookup_2 _ _ _ Hj) Hfound) in Hn'.
      injection Hn' as Hn'. apply tree_at_ref, Htrees in Hn'. lia. }
    assert (i ≠ j) as Hij by (intros ->; congruence).
    destruct (decide (i < j)) as [Hlt|Hge].
    + destruct (forEach_instantiate_ordered b3 trees names nodes ∅ h tempNodes h' i j
                  id spec id0 spec' Hrun Hnd Hlt Hi Hj Hnew Hnew')
        as (n1 & n2 & Hn1 & Hn2 & _ & Horder).
      rewrite Hn in Hn1. rewrite Hn' in Hn2. injection Hn1 as <-. injection Hn2 as <-. lia.
    + assert (j < i) as Hlt by lia.
      destruct (forEach_instantiate_ordered b3 trees names nodes ∅ h tempNodes h' j i
                  id0 spec' id spec Hrun Hnd Hlt Hj Hi Hnew' Hnew)
        as (n1 & n2 & Hn1 & Hn2 & _ & Horder).
      rewrite Hn in Hn2. rewrite Hn' in Hn1. injection Hn1 as <-. injection Hn2 as <-. lia.
  - rewrite (forEach_instantiate_other b3 trees names nodes ∅ h tempNodes h' id' Hrun Hout)
      in Hn'. done.
Qed.
End Wired.

Section WiredTree.
Import Js Loader.
Local Open Scope nat_scope.
Variable b3 : Namespace.
Variable trees : gmap string loc.
Variable names : gmap string value.
Implicit Types (h : list cell) (l a n : loc) (p : gmap string value).
Implicit Types (tempNodes : gmap string value) (spec : NodeSpec) (id : string).
Implicit Types (nodes : list (string * NodeSpec)) (tree : TreeSpec).

Lemma load_tree_grows tree h h' a :
  load_tree b3 trees names tree h = Normal h' → grows a h h'.
Proof.
  unfold load_tree. intros Hrun. inv_bind Hrun. destruct x as [tempNodes h1]. inv_bind Hrun.
  destruct (forEach_instantiate_extends b3 trees names _ _ _ _ _ Hx) as [ext ->].
  eapply grows_trans; [apply grows_app|].
  eapply grows_trans; [by eapply forEach_connect_grows|]. by eapply grows_assign.
Qed.

Lemma load_tree_length tree h h' :
  load_tree b3 trees names tree h = Normal h' → length h ≤ length h'.
Proof.
  unfold load_tree. intros Hrun. inv_bind Hrun. destruct x as [tempNodes h1]. inv_bind Hrun.
  apply forEach_instantiate_length in Hx. apply forEach_connect_length in Hx0.
  apply assign_length in Hrun. lia.
Qed.

(** Loading a tree writes [root] and [child] only. *)
Lemma load_tree_keeps_other tree h h' k l :
  k ≠ "child" → k ≠ "root" →
  load_tree b3 trees names tree h = Normal h' → keeps k l h h'.
Proof.
  intros Hchild Hroot. unfold load_tree. intros Hrun. inv_bind Hrun.
  destruct x as [tempNodes h1]. inv_bind Hrun.
  destruct (forEach_instantiate_extends b3 trees names _ _ _ _ _ Hx) as [ext ->].
  eapply keeps_trans; [apply keeps_app|].
  eapply keeps_trans; [by eapply forEach_connect_keeps|].
  exact (keeps_assign_ne_key k "root" l _ _ _ _ Hroot Hrun).
Qed.

(** It writes the [child] of its own new nodes and of trees only. *)
Lemma load_tree_keeps_child tree h h' n :
  (∀ k a, trees !! k = Some a → a ≠ n) → n < length h →
  load_tree b3 trees names tree h = Normal h' → keeps "child" n h h'.
Proof.
  intros Htrees Hn. unfold load_tree. intros Hrun. inv_bind Hrun.
  destruct x as [tempNodes h1]. inv_bind Hrun.
  assert (∀ id spec, (id, spec) ∈ tree_nodes tree → temp tempNodes id ≠ VRef n) as Hslots.
  { intros id spec _ Hid. apply temp_ref in Hid.
    destruct (forEach_instantiate_slots b3 trees names _ _ _ _ _ _ _ Hx Hid)
      as [Hold|[[k Hk]|Hfresh]]; [done| |lia].
    by apply (Htrees k n). }
  destruct (forEach_instantiate_extends b3 trees names _ _ _ _ _ Hx) as [ext ->].
  eapply keeps_trans; [apply keeps_app|].
  eapply keeps_trans; [by eapply forEach_connect_keeps_child|].
  exact (keeps_assign_ne_key "child" "root" n _ _ _ _ ltac:(done) Hrun).
Qed.

(** The children of a composite, after its tree is loaded. *)
Lemma load_tree_children tree h h' tempNodes h1 pid pspec n p arr elems cids :
  load_tree b3 trees names tree h = Normal h' →
  forEach (instantiate b3 trees names) (tree_nodes tree) (∅, h) = Normal (tempNodes, h1) →
  (pid, pspec) ∈ tree_nodes tree → tempNodes !! pid = Some (VRef n) →
  h1 !! n = Some (CObj p) → p !! "category" = Some (COMPOSITE b3) →
  p !! "children" = Some (VRef arr) → h1 !! arr = Some (CArr elems) →
  spec_children pspec = Some cids →
  (∃ p', h' !! n = Some (CObj p') ∧ p' !! "children" = Some (VRef arr)) ∧
  ∃ pre post, h' !! arr = Some (CArr (elems ++ pre ++ (temp tempNodes <$> cids) ++ post)).
Proof.
  unfold load_tree. intros Hrun Hinst Hin Hpid Hn Hcat Hchildren Harr Hcids.
  rewrite Hinst in Hrun. cbn [mbind completion_bind bind] in Hrun. inv_bind Hrun.
  destruct (list_elem_of_split _ _ Hin) as (before & after & Hnodes).
  rewrite Hnodes, forEach_app in Hx. inv_bind Hx. cbn [forEach] in Hx. inv_bind Hx.
  destruct (forEach_connect_keeps b3 _ _ _ _ "category" n ltac:(done) Hx0 _ Hn)
    as (p0 & Hn0 & Hcat0).
  destruct (forEach_connect_keeps b3 _ _ _ _ "children" n ltac:(done) Hx0 _ Hn)
    as (p0' & Hn0' & Hchildren0).
  assert (p0' = p0) as -> by congruence.
  destruct (forEach_connect_grows b3 _ _ _ _ arr Hx0 _ Harr) as [m1 Harr0].
  rewrite (connect_children b3 tempNodes pid pspec x0 n arr p0 (elems ++ m1) cids) in Hx1;
    [|done|done|congruence|congruence|done|done].
  injection Hx1 as <-.
  assert ((<[arr := CArr ((elems ++ m1) ++ (temp tempNodes <$> cids))]> x0) !! arr
          = Some (CArr ((elems ++ m1) ++ (temp tempNodes <$> cids)))) as Harr1.
  { apply list_lookup_insert_eq. by eapply lookup_lt_Some. }
  assert ((<[arr := CArr ((elems ++ m1) ++ (temp tempNodes <$> cids))]> x0) !! n
          = Some (CObj p0)) as Hn1.
  { rewrite list_lookup_insert_ne; [done|]. congruence. }
  destruct (forEach_connect_grows b3 _ _ _ _ arr Hx _ Harr1) as [m2 Harr2].
  destruct (grows_assign arr _ _ _ _ _ Hrun _ Harr2) as [m3 Harr3].
  destruct (forEach_connect_keeps b3 _ _ _ _ "children" n ltac:(done) Hx _ Hn1)
    as (p2 & Hn2 & Hchildren2).
  destruct (keeps_assign_ne_key "children" "root" n _ _ _ _ ltac:(done) Hrun _ Hn2)
    as (p3 & Hn3 & Hchildren3).
  split.
  - exists p3. split; [done|]. congruence.
  - exists m1, (m2 ++ m3). rewrite Harr3. do 2 f_equal. by rewrite <- !app_assoc.
Qed.

(** The child of a decorator, after its tree is loaded. *)
Lemma load_tree_child tree h h' tempNodes h1 pid pspec n p cid :
  load_tree b3 trees names tree h = Normal h' →
  forEach (instantiate b3 trees names) (tree_nodes tree) (∅, h) = Normal (tempNodes, h1) →
  NoDup (tree_nodes tree).*1 → (∀ k a, trees !! k = Some a → a < length h) →
  (pid, pspec) ∈ tree_nodes tree → tempNodes !! pid = Some (VRef n) → length h ≤ n →
  h1 !! n = Some (CObj p) → p !! "category" = Some (DECORATOR b3) →
  DECORATOR b3 ≠ COMPOSITE b3 ∨ spec_children pspec = None →
  spec_child pspec = Some cid → cid ≠ EmptyString →
  ∃ p', h' !! n = Some (CObj p') ∧ p' !! "child" = Some (temp tempNodes cid).
Proof.
  unfold load_tree. intros Hrun Hinst Hnd Htrees Hin Hpid Hfresh Hn Hcat Hnot Hchild Hcid.
  rewrite Hinst in Hrun. cbn [mbind completion_bind bind] in Hrun. inv_bind Hrun.
  assert (∀ id spec, (id, spec) ∈ tree_nodes tree → id ≠ pid → temp tempNodes id ≠ VRef n)
    as Hslots.
  { intros id spec _ Hne Hid. apply temp_ref in Hid.
    by apply (forEach_instantiate_own b3 trees names _ _ _ _ _ _ _ id Hinst Hnd Htrees Hin Hpid). }
  destruct (list_elem_of_split _ _ Hin) as (before & after & Hnodes).
  rewrite Hnodes in Hnd, Hslots, Hx.
  rewrite fmap_app, fmap_cons in Hnd. apply NoDup_app in Hnd as (_ & Hbefore & Hafter).
  apply NoDup_cons in Hafter as [Hafter _]. cbn in Hbefore, Hafter.
  rewrite forEach_app in Hx. inv_bind Hx. cbn [forEach] in Hx. inv_bind Hx.
  destruct (forEach_connect_keeps b3 _ _ _ _ "category" n ltac:(done) Hx0 _ Hn)
    as (p0 & Hn0 & Hcat0).
  rewrite (connect_child b3 tempNodes pid pspec x0 n p0 cid) in Hx1;
    [|done|done|congruence|done..].
  injection Hx1 as <-.
  assert ((<[n := CObj (<["child" := temp tempNodes cid]> p0)]> x0) !! n
          = Some (CObj (<["child" := temp tempNodes cid]> p0))) as Hn1.
  { apply list_lookup_insert_eq. by eapply lookup_lt_Some. }
  assert (keeps "child" n (<[n := CObj (<["child" := temp tempNodes cid]> p0)]> x0) x)
    as Hkeep.
  { eapply forEach_connect_keeps_child; [|exact Hx].
    intros id spec Hid. apply (Hslots id spec).
    - apply elem_of_app. right. by right.
    - intros ->. apply Hafter. apply list_elem_of_fmap. by exists (pid, spec). }
  destruct (Hkeep _ Hn1) as (p2 & Hn2 & Hchild2).
  destruct (keeps_assign_ne_key "child" "root" n _ _ _ _ ltac:(done) Hrun _ Hn2)
    as (p3 & Hn3 & Hchild3).
  exists p3. split; [done|]. by rewrite Hchild3, Hchild2, lookup_insert_eq.
Qed.
End WiredTree.

Section Subtrees.
Import Js Loader.
Local Open Scope nat_scope.
Variable b3 : Namespace.
Implicit Types (h : list cell) (l a n : loc) (p : gmap string value).
Implicit Types (ts : list TreeSpec) (tree : TreeSpec) (spec : NodeSpec) (id : string).
Implicit Types (names : option (gmap string value)) (trees : gmap string loc).

Lemma forEach_load_tree_grows trees custom ts h h' a :
  forEach (load_tree b3 trees custom) ts h = Normal h' → grows a h h'.
Proof.
  apply forEach_preserves.
  - apply grows_refl.
  - apply grows_trans.
  - intros tree h1 h2 _. apply load_tree_grows.
Qed.

Lemma forEach_load_tree_length trees custom ts h h' :
  forEach (load_tree b3 trees custom) ts h = Normal h' → length h ≤ length h'.
Proof.
  apply (forEach_preserves (λ h h' : list cell, length h ≤ length h')).
  - done.
  - intros h1 h2 h3 H12 H23. lia.
  - intros tree h1 h2 _. apply load_tree_length.
Qed.

Lemma forEach_load_tree_keeps_other trees custom ts h h' k l :
  k ≠ "child" → k ≠ "root" →
  forEach (load_tree b3 trees custom) ts h = Normal h' → keeps k l h h'.
Proof.
  intros Hchild Hroot. apply forEach_preserves.
  - apply keeps_refl.
  - apply keeps_trans.
  - intros tree h1 h2 _. by apply load_tree_keeps_other.
Qed.

Lemma forEach_load_tree_keeps_child trees custom ts h h' n :
  (∀ k a, trees !! k = Some a → a ≠ n) → n < length h →
  forEach (load_tree b3 trees custom) ts h = Normal h' → keeps "child" n h h'.
Proof.
  intros Htrees Hn Hrun.
  apply (forEach_preserves
           (λ h h' : list cell, length h ≤ length h' ∧ (n < length h → keeps "child" n h h'))
           (load_tree b3 trees custom) ts) in Hrun; [by apply Hrun|..].
  - intros h1. split; [done|]. intros _. apply keeps_refl.
  - intros h1 h2 h3 [Hlen12 H12] [Hlen23 H23]. split; [lia|]. intros Hlt.
    eapply keeps_trans; [by apply H12|]. apply H23. lia.
  - intros tree h1 h2 _ Hstep. split; [by eapply load_tree_length|].
    intros Hlt. by eapply load_tree_keeps_child.
Qed.

(** The [root] of a tree object is written when its own tree is loaded,
    and by no other tree when the ids differ. *)
Lemma forEach_load_tree_keeps_root trees custom ts h h' l :
  (∀ tree, tree ∈ ts → trees !! tree_id tree ≠ Some l) →
  forEach (load_tree b3 trees custom) ts h = Normal h' → keeps "root" l h h'.
Proof.
  intros Hother. apply forEach_preserves.
  - apply keeps_refl.
  - apply keeps_trans.
  - intros tree h1 h2 Hin Hstep. eapply load_tree_keeps; [done|]. by apply Hother.
Qed.

(** The run of [LoadProject] around one of its trees. *)
Lemma LoadProject_split ts names h mapping h' out before B after :
  LoadProject b3 (Project ts) names h = Normal (Some mapping, h', out) →
  ts = before ++ B :: after →
  mapping = (created b3 ts ∅ h).1 ∧
  ∃ h2 h4,
    forEach (load_tree b3 mapping (default ∅ names)) before (created b3 ts ∅ h).2 = Normal h2 ∧
    load_tree b3 mapping (default ∅ names) B h2 = Normal h4 ∧
    forEach (load_tree b3 mapping (default ∅ names)) after h4 = Normal h'.
Proof.
  intros Hload Hts. rewrite LoadProject_project in Hload. inv_bind Hload.
  injection Hload as <- <- <-. split; [done|].
  rewrite Hts in Hx at 2. rewrite forEach_app in Hx. inv_bind Hx.
  cbn [forEach] in Hx. inv_bind Hx. by exists x0, x1.
Qed.

(** The trees of the first pass are older than whatever the second pass
    makes. *)
Lemma created_lookup_lt ts h k a :
  (created b3 ts ∅ h).1 !! k = Some a → a < length (created b3 ts ∅ h).2.
Proof.
  intros Ha. apply created_lookup_inv in Ha as [Ha|(i & tree & Hi & _ & ->)]; [done|].
  rewrite created_length. apply lookup_lt_Some in Hi. lia.
Qed.

(** C2, as the code has it.  Let tree A be a tree of the project.  The
    first pass makes a tree object for it and files it under its id (when
    ids are distinct, its own object, the one for its place in the list).
    A node specification that names A, in whatever tree and at whatever
    place it stands, has its slot bound to that very object: every round
    of the first loop on it does so, without making an object and without
    reading the root of A.  In a load that returns, of a project with
    ordinary ids, that is the value wired into the referencing tree B, whose slots [tempNodes] are those
    of its first loop: the [root] of B's tree object is the slot of its
    root id; the children array of a composite holds, in the final heap
    and in the order of the specification, the slots of its child ids;
    and the [child] of a new decorator node is the slot of its child id.
    So a slot that names A puts the tree object of A there, not the root
    node of A. *)
Theorem subtree_slot_is_the_tree ts names h A :
  A ∈ ts →
  ∃ trees h1 a,
    forEach (create_tree b3) ts (∅, h) = Normal (trees, h1) ∧
    trees !! tree_id A = Some a ∧
    (∃ i A', ts !! i = Some A' ∧ tree_id A' = tree_id A ∧ a = length h + i ∧
             h1 !! a = Some (CObj (BehaviorTree_from b3 a A')) ∧
             (NoDup (tree_id <$> ts) → A' = A)) ∧
    (∀ id spec tempNodes h0, spec_name spec = tree_id A →
       instantiate b3 trees (default ∅ names) (id, spec) (tempNodes, h0)
         = Normal (<[id := VRef a]> tempNodes, h0)) ∧
    ∀ mapping h' out before B after,
      LoadProject b3 (Project ts) names h = Normal (Some mapping, h', out) →
      ordinary ts → ts = before ++ B :: after → NoDup (tree_nodes B).*1 →
      mapping = trees ∧
      ∃ h2 tempNodes h3,
        forEach (load_tree b3 trees (default ∅ names)) before h1 = Normal h2 ∧
        forEach (instantiate b3 trees (default ∅ names)) (tree_nodes B) (∅, h2)
          = Normal (tempNodes, h3) ∧
        (∀ id spec, (id, spec) ∈ tree_nodes B → spec_name spec = tree_id A →
           tempNodes !! id = Some (VRef a) ∧ temp tempNodes id = VRef a) ∧
        (NoDup (tree_id <$> ts) →
           ∃ b, trees !! tree_id B = Some b ∧
                get_prop h' (VRef b) "root" = Normal (temp tempNodes (tree_root B)) ∧
                ∀ spec, (tree_root B, spec) ∈ tree_nodes B → spec_name spec = tree_id A →
                        get_prop h' (VRef b) "root" = Normal (VRef a)) ∧
        (∀ pid pspec n p arr elems cids,
           (pid, pspec) ∈ tree_nodes B → tempNodes !! pid = Some (VRef n) →
           h3 !! n = Some (CObj p) → p !! "category" = Some (COMPOSITE b3) →
           p !! "children" = Some (VRef arr) → h3 !! arr = Some (CArr elems) →
           spec_children pspec = Some cids →
           get_prop h' (VRef n) "children" = Normal (VRef arr) ∧
           ∃ pre post,
             h' !! arr = Some (CArr (elems ++ pre ++ (temp tempNodes <$> cids) ++ post)) ∧
             ∀ j cid spec, cids !! j = Some cid → (cid, spec) ∈ tree_nodes B →
                           spec_name spec = tree_id A →
               (elems ++ pre ++ (temp tempNodes <$> cids) ++ post)
                 !! (length elems + length pre + j) = Some (VRef a)) ∧
        (∀ pid pspec n p cid,
           (pid, pspec) ∈ tree_nodes B → tempNodes !! pid = Some (VRef n) →
           length h2 ≤ n → h3 !! n = Some (CObj p) →
           p !! "category" = Some (DECORATOR b3) →
           DECORATOR b3 ≠ COMPOSITE b3 ∨ spec_children pspec = None →
           spec_child pspec = Some cid → cid ≠ EmptyString →
           get_prop h' (VRef n) "child" = Normal (temp tempNodes cid) ∧
           ∀ spec, (cid, spec) ∈ tree_nodes B → spec_name spec = tree_id A →
                   get_prop h' (VRef n) "child" = Normal (VRef a)).
Proof.
  intros HA.
  destruct (created_lookup_in b3 ts ∅ h A HA) as (i & A' & Hi & Hid & Ha).
  exists (created b3 ts ∅ h).1, (created b3 ts ∅ h).2, (length h + i).
  set (trees := (created b3 ts ∅ h).1) in *. set (h1 := (created b3 ts ∅ h).2) in *.
  split; [rewrite forEach_create_tree; by destruct (created b3 ts ∅ h)|].
  split; [done|]. split.
  { exists i, A'. split; [done|]. split; [done|]. split; [done|].
    split; [by apply created_object|].
    intros Hids. apply list_elem_of_lookup in HA as [j Hj].
    pose proof (created_lookup_NoDup b3 ts ∅ h j A Hids Hj) as Ha'.
    fold trees in Ha'. assert (i = j) as -> by (rewrite Ha in Ha'; injection Ha'; lia).
    congruence. }
  split.
  { intros id spec tempNodes h0 Hname. apply instantiate_tree. by rewrite Hname. }
  intros mapping h' out before B after Hload _ Hts Hnodes.
  destruct (LoadProject_split _ _ _ _ _ _ _ _ _ Hload Hts) as (-> & h2 & h4 & Hbefore & HB & Hafter).
  fold trees h1 in Hbefore, HB, Hafter. split; [done|].
  pose proof HB as Hrun. unfold load_tree in Hrun. inv_bind Hrun. destruct x as [tempNodes h3].
  clear Hrun. exists h2, tempNodes, h3. split; [done|]. split; [done|].
  pose proof (forEach_load_tree_length _ _ _ _ _ Hbefore) as Hlen2.
  pose proof (forEach_instantiate_length _ _ _ _ _ _ _ _ Hx) as Hlen3.
  pose proof (load_tree_length _ _ _ _ _ _ HB) as Hlen4.
  assert (∀ k b, trees !! k = Some b → b < length h2) as Hold.
  { intros k b Hb. apply created_lookup_lt in Hb. fold h1 in Hb. lia. }
  assert (∀ id spec, (id, spec) ∈ tree_nodes B → spec_name spec = tree_id A →
            tempNodes !! id = Some (VRef (length h + i))
            ∧ temp tempNodes id = VRef (length h + i)) as Hslots.
  { intros id spec Hin Hname.
    assert (tempNodes !! id = Some (VRef (length h + i))) as Hslot.
    { eapply forEach_instantiate_tree; [done..|]. by rewrite Hname. }
    split; [done|]. by apply plain_get_own. }
  split; [done|]. split; [|split].
  - intros Hids.
    assert (ts !! length before = Some B) as HiB by (rewrite Hts; by apply list_lookup_middle).
    pose proof (created_lookup_NoDup b3 ts ∅ h _ B Hids HiB) as Hb. fold trees in Hb.
    pose proof (created_object b3 ts ∅ h _ B HiB) as Hobj. fold h1 in Hobj.
    exists (length h + length before). split; [done|].
    assert (∀ T, T ∈ before ++ after → trees !! tree_id T ≠ Some (length h + length before))
      as Hother.
    { intros T HT Heq. assert (tree_id T = tree_id B) as Hsame by by eapply created_injective.
      rewrite Hts, fmap_app, fmap_cons in Hids.
      apply NoDup_app in Hids as (_ & Hnotin & Hnd). apply NoDup_cons in Hnd as [Hnotin' _].
      apply elem_of_app in HT as [HT|HT].
      - apply (Hnotin (tree_id B)); [|left]. rewrite <- Hsame.
        apply list_elem_of_fmap. by exists T.
      - apply Hnotin'. rewrite <- Hsame. apply list_elem_of_fmap. by exists T. }
    destruct (forEach_load_tree_keeps_other _ _ _ _ _ "id" (length h + length before)
                ltac:(done) ltac:(done) Hbefore _ Hobj) as (p0 & Hp0 & _).
    destruct (load_tree_root b3 trees _ B h2 h4 _ p0 HB Hb Hp0)
      as (tempNodes' & h3' & p1 & Hinst & Hp1 & Hroot1).
    rewrite Hx in Hinst. injection Hinst as <- <-.
    assert (keeps "root" (length h + length before) h4 h') as Hkeep.
    { eapply forEach_load_tree_keeps_root; [|exact Hafter].
      intros T HT. apply Hother. apply elem_of_app. by right. }
    destruct (Hkeep _ Hp1) as (p2 & Hp2 & Hroot2).
    assert (get_prop h' (VRef (length h + length before)) "root"
            = Normal (temp tempNodes (tree_root B))) as Hroot
      by by rewrite (get_prop_obj _ _ _ _ Hp2), Hroot2, Hroot1.
    split; [done|]. intros spec Hin Hname.
    by rewrite Hroot, (proj2 (Hslots _ _ Hin Hname)).
  - intros pid pspec n p arr elems cids Hin Hpid Hn Hcat Hchildren Harr Hcids.
    destruct (load_tree_children b3 trees (default ∅ names) B h2 h4 tempNodes h3 pid pspec n p arr elems cids)
      as [(p4 & Hn4 & Hchildren4) (pre & post & Harr4)]; [done..|].
    destruct (forEach_load_tree_keeps_other _ _ _ _ _ "children" n
                ltac:(done) ltac:(done) Hafter _ Hn4) as (p5 & Hn5 & Hchildren5).
    destruct (forEach_load_tree_grows _ _ _ _ _ arr Hafter _ Harr4) as [more Harr5].
    split; [by rewrite (get_prop_obj _ _ _ _ Hn5), Hchildren5, Hchildren4|].
    exists pre, (post ++ more). split.
    { rewrite Harr5. f_equal. f_equal. by rewrite <- !app_assoc. }
    intros j cid spec Hj Hin' Hname.
    rewrite (app_assoc elems pre), lookup_app_r by (rewrite length_app; lia).
    rewrite length_app.
    replace (length elems + length pre + j - (length elems + length pre)) with j by lia.
    rewrite lookup_app_l by (rewrite length_fmap; by eapply lookup_lt_Some).
    rewrite list_lookup_fmap, Hj. cbn. f_equal. by apply (Hslots cid spec).
  - intros pid pspec n p cid Hin Hpid Hfresh Hn Hcat Hnot Hchild Hcid.
    destruct (load_tree_child b3 trees (default ∅ names) B h2 h4 tempNodes h3 pid pspec n p cid)
      as (p4 & Hn4 & Hchild4); [done|done|done|exact Hold|done..|].
    assert (keeps "child" n h4 h') as Hkeep.
    { eapply forEach_load_tree_keeps_child; [| |exact Hafter].
      - intros k b Hb Heq. apply Hold in Hb. lia.
      - by eapply lookup_lt_Some. }
    destruct (Hkeep _ Hn4) as (p5 & Hn5 & Hchild5).
    assert (get_prop h' (VRef n) "child" = Normal (temp tempNodes cid)) as Hget
      by by rewrite (get_prop_obj _ _ _ _ Hn5), Hchild5, Hchild4.
    split; [done|]. intros spec Hin' Hname.
    by rewrite Hget, (proj2 (Hslots _ _ Hin' Hname)).
Qed.
End Subtrees.

Section SubtreesLoaded.
Import Js Loader.
Local Open Scope nat_scope.

(** Tree A as the root of tree B, as the second child of the Sequence
    of tree C, and as the child of the Inverter of tree D: each time the
    value found there after the load is the tree object of A. *)
Lemma subtree_slot_is_the_tree_witness :
  tree_A ∈ project_AB ∧ tree_A ∈ project_CA ∧ tree_A ∈ project_DA ∧
  (loaded_AB.1 !! "A" = Some 0 ∧
   get_prop loaded_AB.2 (VRef 1) "root" = Normal (VRef 0)) ∧
  (loaded_CA.1 !! "A" = Some 1 ∧
   ∃ pre post,
     loaded_CA.2 !! 2 = Some (CArr ([] ++ pre ++ [VRef 4; VRef 1] ++ post)) ∧
     ([] ++ pre ++ [VRef 4; VRef 1] ++ post) !! (0 + length pre + 1) = Some (VRef 1)) ∧
  (loaded_DA.1 !! "A" = Some 1 ∧
   get_prop loaded_DA.2 (VRef 2) "child" = Normal (VRef 1)).
Proof.
  assert (tree_A ∈ project_AB) as HAB by left.
  assert (tree_A ∈ project_CA) as HCA by (right; left).
  assert (tree_A ∈ project_DA) as HDA by (right; left).
  split; [exact HAB|]. split; [exact HCA|]. split; [exact HDA|]. split; [|split].
  - split; [vm_compute; reflexivity|].
    destruct (subtree_slot_is_the_tree b3_sample project_AB None [] tree_A HAB)
      as (trees & h1 & a & Hcreate & Ha & _ & _ & Hload).
    vm_compute in Hcreate. injection Hcreate as <- <-.
    vm_compute in Ha. injection Ha as <-.
    destruct (Hload loaded_AB.1 loaded_AB.2 [] [tree_A] tree_B [])
      as (_ & h2 & tempNodes & h3 & Hbefore & Hinst & _ & Hroot & _).
    + vm_compute; reflexivity.
    + split; compute_done.
    + reflexivity.
    + compute_done.
    + destruct Hroot as (b & Hb & _ & Hroot); [compute_done|].
      vm_compute in Hb. injection Hb as <-.
      apply (Hroot (node "A")); [left|reflexivity].
  - split; [vm_compute; reflexivity|].
    destruct (subtree_slot_is_the_tree b3_sample project_CA None [] tree_A HCA)
      as (trees & h1 & a & Hcreate & Ha & _ & _ & Hload).
    vm_compute in Hcreate. injection Hcreate as <- <-.
    vm_compute in Ha. injection Ha as <-.
    destruct (Hload loaded_CA.1 loaded_CA.2 [] [] tree_C [tree_A])
      as (_ & h2 & tempNodes & h3 & Hbefore & Hinst & _ & _ & Hchildren & _).
    + vm_compute; reflexivity.
    + split; compute_done.
    + reflexivity.
    + compute_done.
    + vm_compute in Hbefore. injection Hbefore as <-.
      vm_compute in Hinst. injection Hinst as <- <-.
      destruct (Hchildren "1" spec_C_sequence 3
                  (filled "properties" (VHost 1)
                     (filled "description" VUndef
                        (filled "title" VUndef
                           (filled "id" (VStr "seq")
                              (<["children" := VRef 2]> (node_fields "composite" "Sequence"))))))
                  2 [] ["2"; "3"])
        as [_ (pre & post & Harr & Hthere)].
      * left.
      * vm_compute; reflexivity.
      * vm_compute; reflexivity.
      * vm_compute; reflexivity.
      * vm_compute; reflexivity.
      * vm_compute; reflexivity.
      * vm_compute; reflexivity.
      * exists pre, post. split; [exact Harr|].
        apply (Hthere 1 "3" (node "A")); [reflexivity|right; right; left|reflexivity].
  - split; [vm_compute; reflexivity|].
    destruct (subtree_slot_is_the_tree b3_sample project_DA None [] tree_A HDA)
      as (trees & h1 & a & Hcreate & Ha & _ & _ & Hload).
    vm_compute in Hcreate. injection Hcreate as <- <-.
    vm_compute in Ha. injection Ha as <-.
    destruct (Hload loaded_DA.1 loaded_DA.2 [] [] tree_D [tree_A])
      as (_ & h2 & tempNodes & h3 & Hbefore & Hinst & _ & _ & _ & Hchild).
    + vm_compute; reflexivity.
    + split; compute_done.
    + reflexivity.
    + compute_done.
    + vm_compute in Hbefore. injection Hbefore as <-.
      vm_compute in Hinst. injection Hinst as <- <-.
      destruct (Hchild "1" spec_D_inverter 2
                  (filled "properties" VUndef
                     (filled "description" VUndef
                        (filled "title" VUndef
                           (filled "id" VUndef
                              (<["child" := VNull]> (node_fields "decorator" "Inverter"))))))
                  "2") as [_ HchildA].
      * left.
      * vm_compute; reflexivity.
      * vm_compute; lia.
      * vm_compute; reflexivity.
      * vm_compute; reflexivity.
      * left. discriminate.
      * reflexivity.
      * discriminate.
      * apply (HchildA (node "A")); [right; left|reflexivity].
Defined.
End SubtreesLoaded.

Section WiringWitnesses.
Import Js Loader.
Local Open Scope nat_scope.

Lemma connect_composite_witness :
  connect b3_sample slots_sequence ("1", spec_sequence) heap_sequence
    = Normal (<[0 := CArr [VRef 7; VUndef; VNative "Object.prototype.toString"]]>
                heap_sequence).
Proof.
  destruct (connect_composite b3_sample slots_sequence "1" spec_sequence heap_sequence 1 0
              (<["children" := VRef 0]> (node_fields "composite" "Sequence")) []
              ["2"; "9"; "toString"] eq_refl eq_refl eq_refl eq_refl eq_refl eq_refl)
    as [Hrun _].
  exact Hrun.
Defined.


Lemma missing_root_is_no_error_witness :
  (∃ b, (loaded (LoadProject b3_sample (Project [tree_rootless]) None [])).1
          !! tree_id tree_rootless = Some b ∧
        get_prop (loaded (LoadProject b3_sample (Project [tree_rootless]) None [])).2
                 (VRef b) "root" = Normal VUndef) ∧
  (∃ b, (loaded (LoadProject b3_sample (Project [tree_valueOf]) None [])).1
          !! tree_id tree_valueOf = Some b ∧
        get_prop (loaded (LoadProject b3_sample (Project [tree_valueOf]) None [])).2
                 (VRef b) "root" = Normal (VNative "Object.prototype.valueOf")).
Proof.
  split.
  - destruct (missing_root_is_no_error b3_sample [tree_rootless] None []
                (loaded (LoadProject b3_sample (Project [tree_rootless]) None [])).1
                (loaded (LoadProject b3_sample (Project [tree_rootless]) None [])).2 []
                tree_rootless) as (b & Hb & Hroot & _).
    + vm_compute; reflexivity.
    + split; compute_done.
    + compute_done.
    + left.
    + compute_done.
    + exists b. split; [exact Hb|exact Hroot].
  - destruct (missing_root_is_no_error b3_sample [tree_valueOf] None []
                (loaded (LoadProject b3_sample (Project [tree_valueOf]) None [])).1
                (loaded (LoadProject b3_sample (Project [tree_valueOf]) None [])).2 []
                tree_valueOf) as (b & Hb & Hroot & _).
    + vm_compute; reflexivity.
    + split; compute_done.
    + compute_done.
    + left.
    + compute_done.
    + exists b. split; [exact Hb|exact Hroot].
Defined.

(** Two Succeeders are two objects; two nodes named [toString] are the
    same function, and the loop makes no object for them. *)
Lemma nodes_are_fresh_witness :
  (∃ n1 n2,
     (slots (forEach (instantiate b3_sample ∅ ∅) nodes_pair (∅, []))).1 !! "1"
       = Some (VRef n1) ∧
     (slots (forEach (instantiate b3_sample ∅ ∅) nodes_pair (∅, []))).1 !! "2"
       = Some (VRef n2) ∧
     n1 ≠ n2 ∧ length ([] : list cell) ≤ n1 ∧ length ([] : list cell) ≤ n2) ∧
  (slots (forEach (instantiate b3_sample ∅ ∅) nodes_toString (∅, []))).1 !! "1"
    = Some (VNative "Object.prototype.toString") ∧
  (slots (forEach (instantiate b3_sample ∅ ∅) nodes_toString (∅, []))).1 !! "2"
    = Some (VNative "Object.prototype.toString") ∧
  (slots (forEach (instantiate b3_sample ∅ ∅) nodes_toString (∅, []))).2 = [].
Proof.
  split.
  - destruct (nodes_are_fresh b3_sample ∅ ∅ nodes_pair []
                (slots (forEach (instantiate b3_sample ∅ ∅) nodes_pair (∅, []))).1
                (slots (forEach (instantiate b3_sample ∅ ∅) nodes_pair (∅, []))).2
                0 1 "1" (node "Succeeder") "2" (node "Succeeder")) as [Hfresh _].
    + vm_compute; reflexivity.
    + compute_done.
    + compute_done.
    + lia.
    + reflexivity.
    + reflexivity.
    + apply Hfresh; split; vm_compute; reflexivity.
  - destruct (nodes_are_fresh b3_sample ∅ ∅ nodes_toString []
                (slots (forEach (instantiate b3_sample ∅ ∅) nodes_toString (∅, []))).1
                (slots (forEach (instantiate b3_sample ∅ ∅) nodes_toString (∅, []))).2
                0 1 "1" (node "toString") "2" (node "toString")) as [_ Hshared].
    + vm_compute; reflexivity.
    + compute_done.
    + compute_done.
    + lia.
    + reflexivity.
    + reflexivity.
    + destruct Hshared as (H1 & H2 & _); [reflexivity|right; by eexists|].
      split; [exact H1|]. split; [exact H2|]. vm_compute; reflexivity.
Defined.

Lemma builtin_node_witness :
  instantiate b3_sample ∅ ∅ ("1", spec_sequence) (∅, []) =
  Normal (<["1" := VRef 1]> ∅,
          [CArr [];
           CObj (filled "properties" (VHost 1)
                   (filled "description" VUndef
                      (filled "title" (VStr EmptyString)
                         (filled "id" (VStr "seq")
                            (<["children" := VRef 0]>
                               (node_fields "composite" "Sequence"))))))]) ∧
  filled "title" (VStr EmptyString) (node_fields "composite" "Sequence") !! "title"
    = Some (VStr "Sequence").
Proof.
  split; [|reflexivity].
  exact (builtin_node b3_sample ∅ ∅ "1" spec_sequence ∅ []
           (λ _, Normal {| fields := node_fields "composite" "Sequence"; kids := Some [] |})
           {| fields := node_fields "composite" "Sequence"; kids := Some [] |}
           eq_refl eq_refl eq_refl eq_refl).
Defined.
End WiringWitnesses.
